(** * Responsive picture resolution of the image integration

    A shallow embedding of [packages/integrations/image/src/lib/get-picture.ts]:
    [resolveAspectRatio], [resolveFormats], the inner [getSource] and the
    exported [getPicture].

    - JavaScript numbers are binary64 floats ([PrimFloat.float]); [Math.max] and
      [Math.round] are written out over them.
    - An [async] computation is a pair: the transform requests it has issued to
      [getImage], in issue order, and the way its promise settles.
    - [Promise.all] keeps positional order for the values and rejects with the
      reason of the input promise that rejects first in time; the settling
      order is an explicit argument ([Schedule]).
    - What the module imports ([extname] of node:path, [mime.getType],
      [parseAspectRatio], [getImage]) and the number-to-string conversion of
      template literals are fields of the class [Host]. *)

From Stdlib Require Import List String Ascii Bool ZArith Lia.
From Stdlib Require Import Floats.PrimFloat Floats.FloatOps Floats.SpecFloat Floats.FloatAxioms.
From Stdlib Require Import Numbers.Cyclic.Int63.Uint63 DecimalString.
Import ListNotations.
#[local] Set Warnings "-notation-for-abbreviation".
Local Open Scope string_scope.
Local Open Scope list_scope.

(** ** JavaScript values used by the module *)

Notation number := float (only parsing).

(** [ToBoolean] on numbers: [NaN], [+0] and [-0] are falsy. *)
Definition number_truthy (x : number) : bool :=
  negb (PrimFloat.is_nan x || PrimFloat.is_zero x).

(** [ToBoolean] on strings: only the empty string is falsy. *)
Definition string_truthy (s : string) : bool :=
  match s with
  | EmptyString => false
  | String _ _ => true
  end.

(** [Math.max(...args)]: start from [-Infinity]; a [NaN] argument makes the
    result [NaN]; [+0] is larger than [-0]. *)
Fixpoint Math_max_from (highest : number) (args : list number) : number :=
  match args with
  | [] => highest
  | n :: rest =>
      if PrimFloat.is_nan n then PrimFloat.nan
      else
        match PrimFloat.classify n, PrimFloat.classify highest with
        | FloatClass.PZero, FloatClass.NZero => Math_max_from n rest
        | _, _ =>
            if PrimFloat.ltb highest n then Math_max_from n rest
            else Math_max_from highest rest
        end
  end.

Definition Math_max (args : list number) : number :=
  Math_max_from PrimFloat.neg_infinity args.

(** An integer of magnitude below 2^63 as a float ([sign] true: negative). *)
Definition number_of_Z (sign : bool) (n : Z) : number :=
  let magnitude := PrimFloat.of_uint63 (Uint63.of_Z (Z.abs n)) in
  if sign then PrimFloat.opp magnitude else magnitude.

(** [Math.round(x)]: the integral number closest to [x], ties towards
    [+Infinity]; [NaN], the infinities, the zeros and integral values are
    returned unchanged, and a result of zero keeps the sign of [x]. *)
Definition Math_round (x : number) : number :=
  match Prim2SF x with
  | S754_finite s m e =>
      if (0 <=? e)%Z then x
      else
        let scaled := (if s then Z.neg m else Z.pos m) in
        let n := ((2 * scaled + 2 ^ (- e)) / 2 ^ (1 - e))%Z in
        number_of_Z s n
  | _ => x
  end.

(** A thrown value: [new Error(message)]. *)
Inductive JsError : Type :=
| Error (message : string).

(** How a promise settles. *)
Inductive Completion (A : Type) : Type :=
| Fulfilled (value : A)
| Rejected (reason : JsError).
Arguments Fulfilled {A} value.
Arguments Rejected {A} reason.

(** ** Types of the module *)

Definition OutputFormat := string.

(** [ImageMetadata] of vite-plugin-astro-image: the fields read here. *)
Record ImageMetadata : Type := {
  meta_src : string;
  meta_width : number;
  meta_height : number
}.

(** The [src] argument: [string | ImageMetadata | Promise<{ default: ImageMetadata }>].
    A promise is given by the way it settles. *)
Inductive ImageSrc : Type :=
| SrcString (path : string)
| SrcMetadata (metadata : ImageMetadata)
| SrcPromise (settled : Completion ImageMetadata).

(** [TransformOptions['aspectRatio']]: a number or a string such as ["16:9"]. *)
Inductive AspectRatio : Type :=
| RatioNumber (n : number)
| RatioString (s : string).

(** The [widths] argument at run time: the guard of [getPicture] tells a
    missing (falsy) value and a value that is not an array from an array. *)
Inductive WidthsArg : Type :=
| WidthsMissing
| WidthsNotArray
| WidthsArray (ws : list number).

(** [GetPictureParams]; [None] stands for [undefined]. *)
Record GetPictureParams : Type := {
  src : option ImageSrc;
  widths : WidthsArg;
  formats : list OutputFormat;
  aspectRatio : option AspectRatio;
  fit : option string;
  background : option string;
  position : option string
}.

(** The object literal handed to [getImage]. *)
Record GetImageTransform : Type := {
  t_src : option ImageSrc;
  t_format : option OutputFormat;
  t_width : number;
  t_height : option number;
  t_aspectRatio : option number;
  t_fit : option string;
  t_position : option string;
  t_background : option string
}.

(** What [getImage] resolves to: the [src] attribute and the other attributes. *)
Record HTMLAttributes : Type := {
  img_src : string;
  img_attributes : list (string * string)
}.

(** One entry of [GetPictureResult.sources]. *)
Record Source : Type := {
  type : string;
  srcset : string
}.

Record GetPictureResult : Type := {
  image : HTMLAttributes;
  sources : list Source
}.

(** ** Strings, sets and arrays *)

(** [s.replace('.', '')]: the first occurrence of a dot is removed. *)
Fixpoint replace_dot (s : string) : string :=
  match s with
  | EmptyString => EmptyString
  | String c rest =>
      if Ascii.eqb c "."%char then rest else String c (replace_dot rest)
  end.

(** [Array.prototype.join]. *)
Definition join (sep : string) (items : list string) : string :=
  String.concat sep items.

(** A JavaScript [Set] of strings: its elements in insertion order. *)
Definition JsSet := list string.

Definition Set_has (s : JsSet) (x : string) : bool :=
  existsb (String.eqb x) s.

Definition Set_add (s : JsSet) (x : string) : JsSet :=
  if Set_has s x then s else s ++ [x].

Definition Set_new (items : list string) : JsSet :=
  fold_left Set_add items [].

Definition Array_from (s : JsSet) : list string := s.

(** [array[array.length - 1]]; [None] is [undefined]. *)
Definition last_entry {A : Type} (l : list A) : option A :=
  nth_error l (List.length l - 1).

(** ** Asynchronous computations *)

(** The requests issued to [getImage] so far and the settled outcome. *)
Definition Async (A : Type) : Type := (list GetImageTransform * Completion A)%type.

Definition issued {A : Type} (m : Async A) : list GetImageTransform := fst m.
Definition outcome {A : Type} (m : Async A) : Completion A := snd m.

Definition resolve {A : Type} (a : A) : Async A := ([], Fulfilled a).
Definition throw {A : Type} (e : JsError) : Async A := ([], Rejected e).

(** [const x = await m; k x] *)
Definition await {A B : Type} (m : Async A) (k : A -> Async B) : Async B :=
  match outcome m with
  | Fulfilled a => (issued m ++ issued (k a), outcome (k a))
  | Rejected e => (issued m, Rejected e)
  end.

(** Awaiting a promise that has no requests of its own. *)
Definition settled {A : Type} (c : Completion A) : Async A := ([], c).

Notation "x <- m ;; k" := (await m (fun x => k))
  (at level 61, m at next level, right associativity).

(** The reason of input [i] when it is rejected. *)
Definition rejection_at {A : Type} (outs : list (Completion A)) (i : nat) : option JsError :=
  match nth_error outs i with
  | Some (Rejected e) => Some e
  | _ => None
  end.

(** The first rejection along a settling order. *)
Fixpoint first_rejection {A : Type} (outs : list (Completion A)) (order : list nat)
  : option JsError :=
  match order with
  | [] => None
  | i :: rest =>
      match rejection_at outs i with
      | Some e => Some e
      | None => first_rejection outs rest
      end
  end.

Fixpoint fulfilled_values {A : Type} (outs : list (Completion A)) : list A :=
  match outs with
  | [] => []
  | Fulfilled a :: rest => a :: fulfilled_values rest
  | Rejected _ :: rest => fulfilled_values rest
  end.

(** [Promise.all(ps)]. Every input has already been started, so all their
    requests are issued. [order] lists the input positions by settling time;
    positions it leaves out settle afterwards, in positional order. The result
    is rejected with the earliest rejection, and otherwise fulfilled with the
    values by position. *)
Definition Promise_all {A : Type} (order : list nat) (ps : list (Async A)) : Async (list A) :=
  let outs := map outcome ps in
  (List.concat (map issued ps),
   match first_rejection outs (order ++ seq 0 (List.length outs)) with
   | Some e => Rejected e
   | None => Fulfilled (fulfilled_values outs)
   end).

(** Settling orders of one call of [getPicture]: of the width transforms of
    each format, and of the per-format promises. *)
Record Schedule : Type := {
  widths_order : OutputFormat -> list nat;
  formats_order : list nat
}.

(** ** The imports of the module *)

Class Host : Type := {
  (** [extname] of node:path *)
  extname : string -> string;
  (** [mime.getType]; [None] is [null] *)
  mime_getType : string -> option string;
  (** [parseAspectRatio] of loaders/index.js; [None] is [undefined] *)
  parseAspectRatio : option AspectRatio -> option number;
  (** [getImage] of get-image.js: the image transformer *)
  getImage : GetImageTransform -> Completion HTMLAttributes;
  (** the string conversion of a number inside a template literal *)
  Number_toString : number -> string
}.

Section GetPicture.

Context {host : Host}.

(** [await getImage(transform)] *)
Definition await_getImage (transform : GetImageTransform) : Async HTMLAttributes :=
  ([transform], getImage transform).

(** [a || b] where [a] is a number or [undefined] *)
Definition number_or (a : option number) (b : number) : number :=
  match a with
  | Some x => if number_truthy x then x else b
  | None => b
  end.

(** The [TypeError] of ['then' in src] when [src] is [undefined]. *)
Definition in_undefined : JsError :=
  Error "Cannot use 'in' operator to search for 'then' in undefined".

(** [async function resolveAspectRatio({ src, aspectRatio })] *)
Definition resolveAspectRatio (params : GetPictureParams) : Completion (option number) :=
  match src params with
  | Some (SrcString _) => Fulfilled (parseAspectRatio (aspectRatio params))
  | Some (SrcMetadata metadata)
  | Some (SrcPromise (Fulfilled metadata)) =>
      Fulfilled (Some (number_or (parseAspectRatio (aspectRatio params))
                         (PrimFloat.div (meta_width metadata) (meta_height metadata))))
  | Some (SrcPromise (Rejected e)) => Rejected e
  | None => Rejected in_undefined
  end.

(** [extname(path).replace('.', '') as OutputFormat] *)
Definition extension_format (path : string) : OutputFormat :=
  replace_dot (extname path).

(** [async function resolveFormats({ src, formats })] *)
Definition resolveFormats (params : GetPictureParams) : Completion (list OutputFormat) :=
  let unique := Set_new (formats params) in
  match src params with
  | Some (SrcString path) =>
      Fulfilled (filter string_truthy (Array_from (Set_add unique (extension_format path))))
  | Some (SrcMetadata metadata)
  | Some (SrcPromise (Fulfilled metadata)) =>
      Fulfilled (filter string_truthy
                   (Array_from (Set_add unique (extension_format (meta_src metadata)))))
  | Some (SrcPromise (Rejected e)) => Rejected e
  | None => Rejected in_undefined
  end.

(** [!src] *)
Definition src_missing (s : option ImageSrc) : bool :=
  match s with
  | None => true
  | Some (SrcString path) => negb (string_truthy path)
  | Some _ => false
  end.

(** [mime.getType(format) || format] *)
Definition source_type (format : OutputFormat) : string :=
  match mime_getType format with
  | Some t => if string_truthy t then t else format
  | None => format
  end.

(** The object literal of the [getImage] call inside [getSource]. *)
Definition source_transform (params : GetPictureParams) (ratio : number)
    (format : OutputFormat) (width : number) : GetImageTransform :=
  {| t_src := src params;
     t_format := Some format;
     t_width := width;
     t_height := Some (Math_round (PrimFloat.div width ratio));
     t_aspectRatio := None;
     t_fit := fit params;
     t_position := position params;
     t_background := background params |}.

(** The template literal [`${img.src} ${width}w`]. *)
Definition candidate_string (img : HTMLAttributes) (width : number) : string :=
  (img_src img ++ " " ++ Number_toString width ++ "w")%string.

(** [async function getSource(format)], with the variables it closes over:
    [params], the array [widths] and the resolved [aspectRatio]. *)
Definition getSource (sched : Schedule) (params : GetPictureParams)
    (ws : list number) (ratio : number) (format : OutputFormat) : Async Source :=
  imgs <- Promise_all (widths_order sched format)
            (map (fun width =>
                    img <- await_getImage (source_transform params ratio format width) ;;
                    resolve (candidate_string img width))
                 ws) ;;
  resolve {| type := source_type format; srcset := join "," imgs |}.

(** The object literal of the [getImage] call for the fallback image. *)
Definition image_transform (params : GetPictureParams) (ws : list number)
    (ratio : number) (allFormats : list OutputFormat) : GetImageTransform :=
  {| t_src := src params;
     t_format := last_entry allFormats;
     t_width := Math_max ws;
     t_height := None;
     t_aspectRatio := Some ratio;
     t_fit := fit params;
     t_position := position params;
     t_background := background params |}.

Definition src_required : JsError :=
  Error "[@astrojs/image] `src` is required".
Definition width_required : JsError :=
  Error "[@astrojs/image] at least one `width` is required".
Definition aspectRatio_required : JsError :=
  Error "`aspectRatio` must be provided for remote images".

(** [export async function getPicture(params)] *)
Definition getPicture (sched : Schedule) (params : GetPictureParams) : Async GetPictureResult :=
  if src_missing (src params) then throw src_required
  else
    match widths params with
    | WidthsMissing | WidthsNotArray => throw width_required
    | WidthsArray ws =>
        aspectRatio <- settled (resolveAspectRatio params) ;;
        match aspectRatio with
        | None => throw aspectRatio_required
        | Some ratio =>
            if negb (number_truthy ratio) then throw aspectRatio_required
            else
              allFormats <- settled (resolveFormats params) ;;
              image <- await_getImage (image_transform params ws ratio allFormats) ;;
              sources <- Promise_all (formats_order sched)
                           (map (getSource sched params ws ratio) allFormats) ;;
              resolve {| image := image; sources := sources |}
        end
    end.

End GetPicture.

(** ** A host to run the model on

    Concrete imports for the examples: a POSIX [extname], a small MIME table,
    [parseAspectRatio] and a transformer that names its result after the
    request. *)

Module Stub.

Definition is_slash (c : ascii) : bool := Ascii.eqb c "/"%char.
Definition is_dot (c : ascii) : bool := Ascii.eqb c "."%char.

Fixpoint drop_while {A : Type} (f : A -> bool) (l : list A) : list A :=
  match l with
  | [] => []
  | x :: rest => if f x then drop_while f rest else l
  end.

Fixpoint take_while {A : Type} (f : A -> bool) (l : list A) : list A :=
  match l with
  | [] => []
  | x :: rest => if f x then x :: take_while f rest else []
  end.

(** [path.posix.extname]: the part of the last path segment from its last dot
    on; empty when the segment has no dot, starts with its only dot, or is
    [".."]. Trailing slashes are ignored. *)
Definition posix_extname (path : string) : string :=
  let reversed := drop_while is_slash (rev (list_ascii_of_string path)) in
  let segment := take_while (fun c => negb (is_slash c)) reversed in
  let after_dot := take_while (fun c => negb (is_dot c)) segment in
  match drop_while (fun c => negb (is_dot c)) segment with
  | [] => ""
  | _ :: [] => ""
  | _ :: before_dot =>
      match after_dot, before_dot with
      | [], [c] => if is_dot c then "" else "."
      | _, _ => string_of_list_ascii (rev (after_dot ++ ["."%char]))
      end
  end.

(** The entries of the MIME database for the image formats. *)
Definition image_mime (format : string) : option string :=
  if String.eqb format "avif" then Some "image/avif"
  else if String.eqb format "webp" then Some "image/webp"
  else if String.eqb format "png" then Some "image/png"
  else if String.eqb format "jpg" then Some "image/jpeg"
  else if String.eqb format "jpeg" then Some "image/jpeg"
  else if String.eqb format "gif" then Some "image/gif"
  else None.

(** The value of a float that is an integer. *)
Definition integral_value (x : number) : option Z :=
  match Prim2SF x with
  | S754_zero _ => Some 0%Z
  | S754_finite s m e =>
      let magnitude :=
        if (0 <=? e)%Z then Some (Z.pos m * 2 ^ e)%Z
        else if (Z.pos m mod 2 ^ (- e) =? 0)%Z then Some (Z.pos m / 2 ^ (- e))%Z
        else None in
      option_map (fun n => if s then (- n)%Z else n) magnitude
  | _ => None
  end.

(** [Number::toString] on [NaN], the infinities and the integers up to 2^53
    in magnitude, which print as their decimal digits. Other numbers are not
    rendered here (empty string). *)
Definition integral_toString (x : number) : string :=
  if PrimFloat.is_nan x then "NaN"
  else if PrimFloat.eqb x PrimFloat.infinity then "Infinity"
  else if PrimFloat.eqb x PrimFloat.neg_infinity then "-Infinity"
  else
    match integral_value x with
    | Some n =>
        if (Z.abs n <=? 2 ^ 53)%Z
        then ((if (n <? 0)%Z then "-" else "")
                ++ DecimalString.NilZero.string_of_uint (N.to_uint (Z.to_N (Z.abs n))))%string
        else ""
    | None => ""
    end.

(** The value of a string of decimal digits. *)
Fixpoint digits_value (acc : Z) (s : string) : option Z :=
  match s with
  | EmptyString => Some acc
  | String c rest =>
      let n := nat_of_ascii c in
      if ((48 <=? n) && (n <=? 57))%nat
      then digits_value (10 * acc + Z.of_nat (n - 48))%Z rest
      else None
  end.

(** A string of decimal digits as a number; [NaN] for any other string. *)
Definition parse_digits (s : string) : number :=
  match s with
  | EmptyString => PrimFloat.nan
  | _ =>
      match digits_value 0 s with
      | Some n => number_of_Z false n
      | None => PrimFloat.nan
      end
  end.

(** The parts of a string before and after its first colon. *)
Fixpoint split_colon (before : string) (s : string) : option (string * string) :=
  match s with
  | EmptyString => None
  | String c rest =>
      if Ascii.eqb c ":"%char then Some (before, rest)
      else split_colon (before ++ String c EmptyString)%string rest
  end.

(** Modelled from the spec: [parseAspectRatio] of loaders/index.js is not part
    of the sources at hand. "If an explicit override is given (either a decimal
    ratio or a "W:H" string), use it"; without an override there is no ratio. *)
Definition spec_parseAspectRatio (ratio : option AspectRatio) : option number :=
  match ratio with
  | None => None
  | Some (RatioNumber n) => Some n
  | Some (RatioString s) =>
      match split_colon "" s with
      | Some (w, h) => Some (PrimFloat.div (parse_digits w) (parse_digits h))
      | None => Some PrimFloat.nan
      end
  end.

(** A transformer that fulfils with the URL ["<format>/<width>"], and rejects
    the requests whose URL is in [failing]. *)
Definition named_getImage (failing : list string) (transform : GetImageTransform)
  : Completion HTMLAttributes :=
  let url := (match t_format transform with
              | Some f => f
              | None => "undefined"
              end ++ "/" ++ integral_toString (t_width transform))%string in
  if existsb (String.eqb url) failing
  then Rejected (Error ("transform failed: " ++ url))
  else Fulfilled {| img_src := url; img_attributes := [] |}.

Definition host (failing : list string) : Host :=
  {| extname := posix_extname;
     mime_getType := image_mime;
     parseAspectRatio := spec_parseAspectRatio;
     getImage := named_getImage failing;
     Number_toString := integral_toString |}.

(** Transforms settle in issue order. *)
Definition in_order : Schedule :=
  {| widths_order := fun _ => []; formats_order := [] |}.

(** Transforms settle in reverse issue order. *)
Definition reversed : Schedule :=
  {| widths_order := fun _ => [3; 2; 1; 0]%nat; formats_order := [3; 2; 1; 0]%nat |}.

Definition photo (ws : WidthsArg) (fs : list OutputFormat) (ratio : option AspectRatio)
  : GetPictureParams :=
  {| src := Some (SrcString "photo.jpg");
     widths := ws;
     formats := fs;
     aspectRatio := ratio;
     fit := None;
     background := None;
     position := None |}.

End Stub.

(** * Vocabulary of the properties *)

(** ** The order of numbers *)

(** The position of a float that is not [NaN] in the order that the
    comparison of floats decides: its sign class, then exponent and mantissa
    (reversed for the negative numbers), compared lexicographically. *)
Definition order_key (x : spec_float) : Z * Z * Z :=
  match x with
  | S754_nan => (3, 0, 0)
  | S754_infinity true => (-2, 0, 0)
  | S754_infinity false => (2, 0, 0)
  | S754_zero _ => (0, 0, 0)
  | S754_finite true m e => (-1, - e, Z.neg m)
  | S754_finite false m e => (1, e, Z.pos m)
  end%Z.

(** The lexicographic order of the positions. *)
Definition key_lt (a b : Z * Z * Z) : Prop :=
  let '(a1, a2, a3) := a in
  let '(b1, b2, b3) := b in
  (a1 < b1 \/ (a1 = b1 /\ (a2 < b2 \/ (a2 = b2 /\ a3 < b3))))%Z.

Definition float_key (x : float) : Z * Z * Z := order_key (Prim2SF x).

(** ** Runs of getPicture *)

Section Vocabulary.

Context {host : Host}.

(** The [srcset] candidate of a width: the transform of the width is fulfilled
    with [img] and the candidate is ["<img.src> <width>w"]. *)
Definition candidate (params : GetPictureParams) (ratio : number)
    (format : OutputFormat) (width : number) (token : string) : Prop :=
  exists img,
    getImage (source_transform params ratio format width) = Fulfilled img /\
    token = candidate_string img width.

(** The guards of [getPicture] are passed and the resolutions give [ws],
    [ratio] and [allFormats]. *)
Definition accepted (params : GetPictureParams) (ws : list number) (ratio : number)
    (allFormats : list OutputFormat) : Prop :=
  src_missing (src params) = false /\
  widths params = WidthsArray ws /\
  resolveAspectRatio params = Fulfilled (Some ratio) /\
  number_truthy ratio = true /\
  resolveFormats params = Fulfilled allFormats.

(** [getPicture] past its guards. *)
Definition transforms (sched : Schedule) (params : GetPictureParams)
    (ws : list number) (ratio : number) (allFormats : list OutputFormat)
  : Async GetPictureResult :=
  image <- await_getImage (image_transform params ws ratio allFormats) ;;
  sources <- Promise_all (formats_order sched)
               (map (getSource sched params ws ratio) allFormats) ;;
  resolve {| image := image; sources := sources |}.

(** The transform requests of the [srcset]s: per format, per width. *)
Definition source_transforms (params : GetPictureParams) (ws : list number)
    (ratio : number) (allFormats : list OutputFormat) : list GetImageTransform :=
  flat_map (fun format => map (source_transform params ratio format) ws) allFormats.

End Vocabulary.

(** ** The resolved format list in the words of the specification *)

(** The declared formats without repetitions, each at its first position. *)
Fixpoint dedup_first (l : list string) : list string :=
  match l with
  | [] => []
  | x :: rest => x :: filter (fun y => negb (String.eqb x y)) (dedup_first rest)
  end.

(** The resolved format list in the words of the specification: the declared
    formats deduplicated, followed by the native format when it is not among
    them, without the empty entries. *)
Definition declared_then_native (declared : list OutputFormat) (native : OutputFormat)
  : list OutputFormat :=
  filter string_truthy
    (dedup_first declared ++
     (if existsb (String.eqb native) declared then [] else [native])).

(** The path whose extension names the native format: the path string itself,
    or the path of the metadata. *)
Definition native_path (s : ImageSrc) : option string :=
  match s with
  | SrcString path => Some path
  | SrcMetadata metadata => Some (meta_src metadata)
  | SrcPromise (Fulfilled metadata) => Some (meta_src metadata)
  | SrcPromise (Rejected _) => None
  end.

(** * Properties *)

(** ** The order of numbers and Math.max *)

Example Math_round_ties :
  map Math_round [2.5; 3.5; -2.5; -0.5; 0.25; -0.25; 450.5625; 7; -7]%float
  = [3; 4; -2; -0; 0; -0; 451; 7; -7]%float.
Proof. vm_compute. reflexivity. Qed.

Example Math_max_examples :
  Math_max [400; 800; 600]%float = 800%float /\
  Math_max [] = PrimFloat.neg_infinity /\
  Math_max [-0; 0]%float = 0%float /\
  Math_max [1; PrimFloat.nan; 2]%float = PrimFloat.nan.
Proof. vm_compute. repeat split; reflexivity. Qed.

Example posix_extname_examples :
  map Stub.posix_extname
    ["photo.jpg"; "uploads/photo"; "a.b/c"; "archive.tar.gz"; ".bashrc"; "dir/.."; "name."]
  = [".jpg"; ""; ""; ".gz"; ""; ""; "."].
Proof. vm_compute. reflexivity. Qed.

Lemma SFcompare_key (x y : spec_float) :
  x <> S754_nan -> y <> S754_nan ->
  match SFcompare x y with
  | Some Lt => key_lt (order_key x) (order_key y)
  | Some Eq => order_key x = order_key y
  | Some Gt => key_lt (order_key y) (order_key x)
  | None => False
  end.
Proof.
  intros Hx Hy.
  destruct x as [sx | sx | | sx mx ex]; destruct y as [sy | sy | | sy my ey];
    try congruence;
    try destruct sx; try destruct sy; simpl; try reflexivity; try lia;
    change (Pos.compare_cont Eq mx my) with (Pos.compare mx my);
    destruct (Z.compare_spec ex ey); destruct (Pos.compare_spec mx my);
    simpl; subst; try reflexivity; lia.
Qed.

Lemma is_nan_false (x : float) : PrimFloat.is_nan x = false -> Prim2SF x <> S754_nan.
Proof.
  unfold PrimFloat.is_nan. rewrite FloatAxioms.eqb_spec. intros Heq Hnan.
  rewrite Hnan in Heq. discriminate.
Qed.

Lemma ltb_key (x y : float) :
  PrimFloat.is_nan x = false -> PrimFloat.is_nan y = false ->
  (PrimFloat.ltb x y = true <-> key_lt (float_key x) (float_key y)).
Proof.
  intros Hx Hy. apply is_nan_false in Hx, Hy.
  pose proof (SFcompare_key _ _ Hx Hy) as Hxy.
  rewrite FloatAxioms.ltb_spec. unfold SFltb, float_key.
  destruct (SFcompare (Prim2SF x) (Prim2SF y)) as [[| |] |]; try contradiction;
    destruct (order_key (Prim2SF x)) as [[a1 a2] a3];
    destruct (order_key (Prim2SF y)) as [[b1 b2] b3];
    unfold key_lt in *; split; intros H; try discriminate; try reflexivity.
  - injection Hxy as -> -> ->. lia.
  - assumption.
  - lia.
Qed.

Lemma leb_key (x y : float) :
  PrimFloat.is_nan x = false -> PrimFloat.is_nan y = false ->
  (PrimFloat.leb x y = true <-> ~ key_lt (float_key y) (float_key x)).
Proof.
  intros Hx Hy. apply is_nan_false in Hx, Hy.
  pose proof (SFcompare_key _ _ Hx Hy) as Hxy.
  rewrite FloatAxioms.leb_spec. unfold SFleb, float_key.
  destruct (SFcompare (Prim2SF x) (Prim2SF y)) as [[| |] |]; try contradiction;
    destruct (order_key (Prim2SF x)) as [[a1 a2] a3];
    destruct (order_key (Prim2SF y)) as [[b1 b2] b3];
    unfold key_lt in *; split; intros H; try discriminate; try reflexivity.
  - injection Hxy as -> -> ->. lia.
  - lia.
  - contradiction.
Qed.

Lemma key_lt_cases (a b : Z * Z * Z) : key_lt a b \/ a = b \/ key_lt b a.
Proof.
  destruct a as [[a1 a2] a3], b as [[b1 b2] b3]. unfold key_lt.
  destruct (Z.eq_dec a1 b1) as [-> |]; [| lia].
  destruct (Z.eq_dec a2 b2) as [-> |]; [| lia].
  destruct (Z.eq_dec a3 b3) as [-> |]; [| lia].
  auto.
Qed.

Lemma key_lt_trans (a b c : Z * Z * Z) : key_lt a b -> ~ key_lt c b -> key_lt a c.
Proof.
  destruct a as [[a1 a2] a3], b as [[b1 b2] b3], c as [[c1 c2] c3]. unfold key_lt. lia.
Qed.

Lemma key_le_trans (a b c : Z * Z * Z) : ~ key_lt b a -> ~ key_lt c b -> ~ key_lt c a.
Proof.
  destruct a as [[a1 a2] a3], b as [[b1 b2] b3], c as [[c1 c2] c3]. unfold key_lt. lia.
Qed.

Lemma leb_trans (x y z : float) :
  PrimFloat.is_nan x = false -> PrimFloat.is_nan y = false -> PrimFloat.is_nan z = false ->
  PrimFloat.leb x y = true -> PrimFloat.leb y z = true -> PrimFloat.leb x z = true.
Proof.
  intros Hx Hy Hz Hxy Hyz.
  apply leb_key in Hxy, Hyz; try assumption.
  apply leb_key; try assumption. eapply key_le_trans; eassumption.
Qed.

Lemma ltb_true_leb (x y : float) :
  PrimFloat.is_nan x = false -> PrimFloat.is_nan y = false ->
  PrimFloat.ltb x y = true -> PrimFloat.leb x y = true.
Proof.
  intros Hx Hy Hlt. apply ltb_key in Hlt; try assumption.
  apply leb_key; try assumption.
  destruct (float_key x) as [[a1 a2] a3], (float_key y) as [[b1 b2] b3].
  unfold key_lt in *. lia.
Qed.

Lemma ltb_false_leb (x y : float) :
  PrimFloat.is_nan x = false -> PrimFloat.is_nan y = false ->
  PrimFloat.ltb x y = false -> PrimFloat.leb y x = true.
Proof.
  intros Hx Hy Hlt. apply leb_key; try assumption.
  intros Hkey. apply ltb_key in Hkey; try assumption. congruence.
Qed.

Lemma zeros_leb (n h : float) :
  PrimFloat.classify n = FloatClass.PZero -> PrimFloat.classify h = FloatClass.NZero ->
  PrimFloat.leb h n = true.
Proof.
  rewrite !FloatAxioms.classify_spec, FloatAxioms.leb_spec. unfold SF64classify, SFclassify.
  destruct (Prim2SF n) as [[|] | [|] | | [|] mn en]; try discriminate;
    try (destruct (Z.eqb _ _); discriminate).
  destruct (Prim2SF h) as [[|] | [|] | | [|] mh eh]; try discriminate;
    try (destruct (Z.eqb _ _); discriminate).
  reflexivity.
Qed.

Lemma leb_neg_infinity (w : float) :
  PrimFloat.leb w PrimFloat.neg_infinity = true -> w = PrimFloat.neg_infinity.
Proof.
  rewrite FloatAxioms.leb_spec. intros Hle. apply FloatAxioms.Prim2SF_inj.
  change (Prim2SF PrimFloat.neg_infinity) with (S754_infinity true) in *.
  destruct (Prim2SF w) as [[|] | [|] | | [|] m e]; cbv in Hle; congruence.
Qed.

(** One step of [Math.max]: the next argument replaces the highest value
    when it is at least as large, and is at most the highest value otherwise. *)
Lemma Math_max_from_step (h n : number) (rest : list number) :
  PrimFloat.is_nan h = false -> PrimFloat.is_nan n = false ->
  (Math_max_from h (n :: rest) = Math_max_from n rest /\ PrimFloat.leb h n = true) \/
  (Math_max_from h (n :: rest) = Math_max_from h rest /\ PrimFloat.leb n h = true).
Proof.
  intros Hh Hn. simpl. rewrite Hn.
  destruct (PrimFloat.ltb h n) eqn:Hlt.
  - left. split; [| now apply ltb_true_leb].
    destruct (PrimFloat.classify n), (PrimFloat.classify h); reflexivity.
  - destruct (PrimFloat.classify n) eqn:Hcn;
      try (right; split; [reflexivity | now apply ltb_false_leb]).
    destruct (PrimFloat.classify h) eqn:Hch;
      try (right; split; [reflexivity | now apply ltb_false_leb]).
    left. split; [reflexivity | now apply zeros_leb].
Qed.

Lemma Math_max_from_spec (args : list number) (h : number) :
  PrimFloat.is_nan h = false ->
  Forall (fun w => PrimFloat.is_nan w = false) args ->
  PrimFloat.is_nan (Math_max_from h args) = false /\
  (Math_max_from h args = h \/ In (Math_max_from h args) args) /\
  PrimFloat.leb h (Math_max_from h args) = true /\
  Forall (fun w => PrimFloat.leb w (Math_max_from h args) = true) args.
Proof.
  intros Hh Hargs. revert h Hh.
  induction Hargs as [| n rest Hn _ IH]; intros h Hh.
  - simpl. repeat split; auto.
    apply leb_key; try assumption.
    destruct (float_key h) as [[a1 a2] a3]. unfold key_lt. lia.
  - destruct (Math_max_from_step h n rest Hh Hn) as [[-> Hle] | [-> Hle]].
    + destruct (IH n Hn) as (Hm & Hin & Hnm & Hrest).
      split; [assumption |]. split; [| split].
      * right. destruct Hin as [Heq | Hin]; [left; now rewrite Heq | now right].
      * now apply leb_trans with n.
      * now constructor.
    + destruct (IH h Hh) as (Hm & Hin & Hhm & Hrest).
      split; [assumption |]. split; [| split].
      * destruct Hin as [Heq | Hin]; [now left | right; now right].
      * assumption.
      * constructor; [| assumption]. now apply leb_trans with h.
Qed.

(** [Math.max] of a non-empty list without [NaN] is an element of the list
    that no element exceeds. *)
Lemma Math_max_spec (ws : list number) :
  ws <> [] ->
  Forall (fun w => PrimFloat.is_nan w = false) ws ->
  In (Math_max ws) ws /\ Forall (fun w => PrimFloat.leb w (Math_max ws) = true) ws.
Proof.
  intros Hne Hws.
  destruct (Math_max_from_spec ws PrimFloat.neg_infinity eq_refl Hws)
    as (_ & Hin & _ & Hle).
  split; [| exact Hle].
  destruct Hin as [Hinf | Hin]; [| exact Hin].
  destruct ws as [| w rest]; [contradiction |].
  inversion Hle as [| ? ? Hw _]; subst.
  unfold Math_max in *. rewrite Hinf in *.
  apply leb_neg_infinity in Hw. subst. now left.
Qed.

(** ** Promise.all *)

Section PromiseAll.

Context {A : Type}.
Implicit Types (outs : list (Completion A)) (ps : list (Async A)) (order : list nat).

Lemma rejection_at_In outs i e :
  rejection_at outs i = Some e -> In (Rejected e) outs.
Proof.
  unfold rejection_at.
  destruct (nth_error outs i) as [[a | e'] |] eqn:Hnth; try discriminate.
  intros [= ->]. eapply nth_error_In; eassumption.
Qed.

Lemma first_rejection_In outs order e :
  first_rejection outs order = Some e -> In (Rejected e) outs.
Proof.
  induction order as [| i rest IH]; simpl; [discriminate |].
  destruct (rejection_at outs i) as [e' |] eqn:Hat; [| exact IH].
  intros [= ->]. eapply rejection_at_In; eassumption.
Qed.

Lemma first_rejection_app outs order1 order2 :
  first_rejection outs (order1 ++ order2) =
  match first_rejection outs order1 with
  | Some e => Some e
  | None => first_rejection outs order2
  end.
Proof.
  induction order1 as [| i rest IH]; simpl; [reflexivity |].
  destruct (rejection_at outs i); [reflexivity | exact IH].
Qed.

Lemma first_rejection_none outs order i :
  first_rejection outs order = None -> In i order -> rejection_at outs i = None.
Proof.
  induction order as [| j rest IH]; simpl; [tauto |].
  destruct (rejection_at outs j) eqn:Hat; [discriminate |].
  intros Hnone [<- | Hin]; auto.
Qed.

(** A rejected input is found by every order once the positions are appended. *)
Lemma first_rejection_complete outs order e :
  In (Rejected e) outs ->
  first_rejection outs (order ++ seq 0 (List.length outs)) <> None.
Proof.
  intros Hin Hnone.
  apply In_nth_error in Hin. destruct Hin as [i Hi].
  assert (Hlt : i < List.length outs) by (apply nth_error_Some; congruence).
  rewrite first_rejection_app in Hnone.
  destruct (first_rejection outs order); [discriminate |].
  apply first_rejection_none with (i := i) in Hnone.
  - unfold rejection_at in Hnone. rewrite Hi in Hnone. discriminate.
  - apply in_seq. lia.
Qed.

Lemma fulfilled_values_all outs :
  (forall e, ~ In (Rejected e) outs) -> outs = map Fulfilled (fulfilled_values outs).
Proof.
  induction outs as [| [a | e] rest IH]; simpl; intros Hno.
  - reflexivity.
  - f_equal. apply IH. intros e He. apply (Hno e). now right.
  - exfalso. apply (Hno e). now left.
Qed.

Lemma fulfilled_values_map (vs : list A) :
  fulfilled_values (map Fulfilled vs) = vs.
Proof. induction vs; simpl; congruence. Qed.

Lemma issued_Promise_all order ps :
  issued (Promise_all order ps) = List.concat (map issued ps).
Proof. reflexivity. Qed.

(** [Promise.all] is fulfilled exactly when every input is, with the values in
    positional order, whatever the settling order. *)
Lemma Promise_all_fulfilled order ps vs :
  outcome (Promise_all order ps) = Fulfilled vs <-> map outcome ps = map Fulfilled vs.
Proof.
  unfold Promise_all, outcome at 1; simpl. split.
  - destruct (first_rejection _ _) as [e |] eqn:Hfirst; [discriminate |].
    intros [= <-]. apply fulfilled_values_all.
    intros e He. eapply first_rejection_complete; eassumption.
  - intros Hall. rewrite Hall.
    destruct (first_rejection _ _) as [e |] eqn:Hfirst.
    + apply first_rejection_In in Hfirst. apply in_map_iff in Hfirst.
      destruct Hfirst as [v [Hv _]]. discriminate.
    + now rewrite fulfilled_values_map.
Qed.

(** [Promise.all] is rejected with the reason of one of its inputs. *)
Lemma Promise_all_rejected order ps e :
  outcome (Promise_all order ps) = Rejected e -> In (Rejected e) (map outcome ps).
Proof.
  unfold Promise_all, outcome at 1; simpl.
  destruct (first_rejection _ _) as [e' |] eqn:Hfirst; [| discriminate].
  intros [= ->]. eapply first_rejection_In; eassumption.
Qed.

(** A rejected input rejects [Promise.all]. *)
Lemma Promise_all_rejects order ps e :
  In (Rejected e) (map outcome ps) ->
  exists e', outcome (Promise_all order ps) = Rejected e'.
Proof.
  intros Hin. unfold Promise_all, outcome at 1; simpl.
  destruct (first_rejection _ _) as [e' |] eqn:Hfirst; [eauto |].
  exfalso. eapply first_rejection_complete; eassumption.
Qed.

End PromiseAll.

Lemma map_outcome_fulfilled {A B : Type} (g : A -> Async B) (l : list A) (vs : list B) :
  map outcome (map g l) = map Fulfilled vs <->
  Forall2 (fun x v => outcome (g x) = Fulfilled v) l vs.
Proof.
  revert vs. induction l as [| x l IH]; intros [| v vs]; simpl; split; intros H;
    try discriminate; try constructor; try (inversion H; fail).
  - now injection H.
  - apply IH. now injection H.
  - inversion H as [| ? ? ? ? Hx Hl]; subst. rewrite Hx. f_equal. now apply IH.
Qed.

Lemma last_entry_app {A : Type} (l : list A) (x : A) :
  last_entry (l ++ [x]) = Some x.
Proof.
  unfold last_entry. rewrite length_app; simpl.
  replace (List.length l + 1 - 1) with (List.length l) by lia.
  rewrite nth_error_app2 by lia. now rewrite Nat.sub_diag.
Qed.

(** ** getSource and getPicture *)

Section Run.

Context {host : Host}.
Variable sched : Schedule.
Variable params : GetPictureParams.

Lemma issued_width_callbacks ws ratio format :
  List.concat
    (map issued
       (map (fun width =>
               img <- await_getImage (source_transform params ratio format width) ;;
               resolve (candidate_string img width))
            ws)) =
  map (source_transform params ratio format) ws.
Proof.
  induction ws as [| w ws IH]; simpl; [reflexivity |].
  rewrite IH. unfold await; simpl. now destruct (getImage _).
Qed.

Lemma issued_getSource ws ratio format :
  issued (getSource sched params ws ratio format) =
  map (source_transform params ratio format) ws.
Proof.
  unfold getSource. unfold await at 1.
  rewrite issued_Promise_all, issued_width_callbacks.
  destruct (outcome (Promise_all _ _)); simpl; now rewrite ?app_nil_r.
Qed.

Lemma outcome_width_callback ratio format width :
  outcome (img <- await_getImage (source_transform params ratio format width) ;;
           resolve (candidate_string img width)) =
  match getImage (source_transform params ratio format width) with
  | Fulfilled img => Fulfilled (candidate_string img width)
  | Rejected e => Rejected e
  end.
Proof. unfold await; simpl. now destruct (getImage _). Qed.

Lemma getSource_fulfilled ws ratio format source :
  outcome (getSource sched params ws ratio format) = Fulfilled source <->
  exists tokens,
    Forall2 (candidate params ratio format) ws tokens /\
    source = {| type := source_type format; srcset := join "," tokens |}.
Proof.
  unfold getSource. unfold await at 1.
  destruct (outcome (Promise_all _ _)) as [tokens | e] eqn:Hall; simpl.
  - apply Promise_all_fulfilled, map_outcome_fulfilled in Hall. split.
    + intros [= <-]. exists tokens. split; [| reflexivity].
      eapply Forall2_impl; [| exact Hall]. intros w token Hw.
      cbv beta in Hw. rewrite outcome_width_callback in Hw. unfold candidate.
      destruct (getImage _) as [img | e]; [| discriminate].
      exists img. split; congruence.
    + intros [tokens' [Hcand ->]]. do 3 f_equal.
      clear - Hall Hcand. revert tokens' Hcand.
      induction Hall as [| w token ws tokens Hw _ IH]; intros tokens' Hcand;
        inversion Hcand as [| ? token' ? tokens'' [img [Himg ->]] Hrest]; subst;
        [reflexivity |].
      cbv beta in Hw. rewrite outcome_width_callback, Himg in Hw. injection Hw as <-.
      f_equal. now apply IH.
  - split; [discriminate |]. intros [tokens [Hcand _]]. exfalso.
    apply Promise_all_rejected in Hall. rewrite map_map in Hall.
    apply in_map_iff in Hall. destruct Hall as [w [Hw Hin]].
    rewrite outcome_width_callback in Hw.
    clear - Hw Hin Hcand. induction Hcand as [| w' token ws tokens [img [Himg _]] _ IH].
    + contradiction.
    + destruct Hin as [-> | Hin]; [rewrite Himg in Hw; discriminate | auto].
Qed.

Lemma getSource_rejected ws ratio format e :
  outcome (getSource sched params ws ratio format) = Rejected e ->
  exists width,
    In width ws /\ getImage (source_transform params ratio format width) = Rejected e.
Proof.
  unfold getSource. unfold await at 1.
  destruct (outcome (Promise_all _ _)) as [tokens | e'] eqn:Hall; simpl; [discriminate |].
  intros [= ->]. apply Promise_all_rejected in Hall. rewrite map_map in Hall.
  apply in_map_iff in Hall. destruct Hall as [w [Hw Hin]].
  rewrite outcome_width_callback in Hw. exists w. split; [assumption |].
  destruct (getImage _); congruence.
Qed.

Lemma getSource_rejects ws ratio format width e :
  In width ws ->
  getImage (source_transform params ratio format width) = Rejected e ->
  exists e', outcome (getSource sched params ws ratio format) = Rejected e'.
Proof.
  intros Hin Hrej. unfold getSource. unfold await at 1.
  destruct (outcome (Promise_all _ _)) as [tokens | e'] eqn:Hall; simpl; [| eauto].
  exfalso. apply Promise_all_fulfilled, map_outcome_fulfilled in Hall.
  clear - Hin Hrej Hall. induction Hall as [| w token ws tokens Hw _ IH]; [contradiction |].
  destruct Hin as [-> | Hin]; [| auto].
  cbv beta in Hw. rewrite outcome_width_callback, Hrej in Hw. discriminate.
Qed.

Lemma getPicture_accepted ws ratio allFormats :
  accepted params ws ratio allFormats ->
  getPicture sched params = transforms sched params ws ratio allFormats.
Proof.
  intros (Hsrc & Hws & Hratio & Htruthy & Hformats).
  unfold getPicture, transforms. rewrite Hsrc, Hws, Hratio.
  unfold await at 1, settled; simpl. rewrite Htruthy; simpl.
  rewrite Hformats. unfold await at 1; simpl.
  destruct (await _ _). reflexivity.
Qed.

(** Either the guards are passed, or the call is rejected before any transform
    is requested. *)
Lemma getPicture_cases :
  (exists ws ratio allFormats, accepted params ws ratio allFormats) \/
  (issued (getPicture sched params) = [] /\
   exists e, outcome (getPicture sched params) = Rejected e).
Proof.
  unfold accepted, getPicture.
  destruct (src_missing (src params)) eqn:Hsrc; [right; simpl; eauto |].
  destruct (widths params) as [| | ws] eqn:Hws; try (right; simpl; eauto; fail).
  unfold resolveAspectRatio, resolveFormats.
  destruct (src params) as [[path | metadata | [metadata | e]] |] eqn:Hs;
    try (right; simpl; eauto; fail).
  - destruct (parseAspectRatio (aspectRatio params)) as [ratio |] eqn:Hparse;
      [| right; simpl; eauto].
    destruct (number_truthy ratio) eqn:Htruthy;
      [| right; unfold await, settled; simpl; rewrite Htruthy; simpl; eauto].
    left. do 3 eexists. repeat split; eauto.
  - match goal with |- context [Some (number_or ?a ?b)] => set (ratio := number_or a b) end.
    destruct (number_truthy ratio) eqn:Htruthy;
      [| right; unfold await, settled; simpl; fold ratio; rewrite Htruthy; simpl; eauto].
    left. do 3 eexists. repeat split; eauto.
  - match goal with |- context [Some (number_or ?a ?b)] => set (ratio := number_or a b) end.
    destruct (number_truthy ratio) eqn:Htruthy;
      [| right; unfold await, settled; simpl; fold ratio; rewrite Htruthy; simpl; eauto].
    left. do 3 eexists. repeat split; eauto.
Qed.

Lemma issued_getSources ws ratio allFormats :
  List.concat (map issued (map (getSource sched params ws ratio) allFormats)) =
  source_transforms params ws ratio allFormats.
Proof.
  unfold source_transforms.
  induction allFormats as [| f fs IH]; simpl; [reflexivity |].
  now rewrite IH, issued_getSource.
Qed.

Lemma issued_transforms ws ratio allFormats :
  issued (transforms sched params ws ratio allFormats) =
  image_transform params ws ratio allFormats ::
  match getImage (image_transform params ws ratio allFormats) with
  | Fulfilled _ => source_transforms params ws ratio allFormats
  | Rejected _ => []
  end.
Proof.
  unfold transforms. unfold await at 1; simpl.
  destruct (getImage _) as [img | e]; [| reflexivity]. simpl. f_equal.
  unfold await. rewrite issued_Promise_all, issued_getSources.
  destruct (outcome (Promise_all _ _)); simpl; now rewrite ?app_nil_r.
Qed.

Lemma transforms_fulfilled ws ratio allFormats result :
  outcome (transforms sched params ws ratio allFormats) = Fulfilled result <->
  getImage (image_transform params ws ratio allFormats) = Fulfilled (image result) /\
  Forall2 (fun format source =>
             outcome (getSource sched params ws ratio format) = Fulfilled source)
          allFormats (sources result).
Proof.
  unfold transforms. unfold await at 1; simpl.
  destruct (getImage _) as [img | e]; simpl.
  - unfold await.
    destruct (outcome (Promise_all _ _)) as [srcs | e] eqn:Hall; simpl.
    + apply Promise_all_fulfilled, map_outcome_fulfilled in Hall. split.
      * intros [= <-]. simpl. now split.
      * intros [[= ->] Hsrcs]. destruct result as [img' srcs']; simpl in *.
        do 2 f_equal. apply map_outcome_fulfilled in Hall, Hsrcs.
        rewrite Hall in Hsrcs. clear - Hsrcs. revert srcs' Hsrcs.
        induction srcs as [| x srcs IH]; intros [| y srcs']; simpl; intros H;
          try discriminate; [reflexivity |].
        injection H as -> H. f_equal. now apply IH.
    + split; [discriminate |]. intros [_ Hsrcs]. exfalso.
      apply map_outcome_fulfilled, (Promise_all_fulfilled (formats_order sched)) in Hsrcs.
      congruence.
  - split; [discriminate |]. intros [Himg _]. discriminate.
Qed.

(** A rejection of [getPicture] past its guards is the rejection of a
    transform it has requested. *)
Lemma transforms_rejected ws ratio allFormats e :
  outcome (transforms sched params ws ratio allFormats) = Rejected e ->
  exists transform,
    In transform (issued (transforms sched params ws ratio allFormats)) /\
    getImage transform = Rejected e.
Proof.
  rewrite issued_transforms. unfold transforms. unfold await at 1; simpl.
  destruct (getImage _) as [img | e'] eqn:Himg; simpl.
  - unfold await.
    destruct (outcome (Promise_all _ _)) as [srcs | e'] eqn:Hall; simpl; [discriminate |].
    intros [= ->]. apply Promise_all_rejected in Hall. rewrite map_map in Hall.
    apply in_map_iff in Hall. destruct Hall as [f [Hf Hin]].
    apply getSource_rejected in Hf. destruct Hf as [w [Hw Hrej]].
    exists (source_transform params ratio f w). split; [| assumption].
    right. unfold source_transforms. apply in_flat_map. exists f. split; [assumption |].
    now apply in_map.
  - intros [= ->]. eexists. split; [now left | assumption].
Qed.

(** A requested transform that is rejected rejects [getPicture]. *)
Lemma transforms_rejects ws ratio allFormats transform e :
  In transform (issued (transforms sched params ws ratio allFormats)) ->
  getImage transform = Rejected e ->
  exists e', outcome (transforms sched params ws ratio allFormats) = Rejected e'.
Proof.
  rewrite issued_transforms. unfold transforms. unfold await at 1; simpl.
  destruct (getImage (image_transform _ _ _ _)) as [img | e'] eqn:Himg; simpl;
    [| eauto].
  intros [<- | Hin] Hrej; [congruence |].
  unfold source_transforms in Hin. apply in_flat_map in Hin.
  destruct Hin as [f [Hf Hin]]. apply in_map_iff in Hin. destruct Hin as [w [<- Hw]].
  destruct (getSource_rejects ws ratio f w e Hw Hrej) as [e1 He1].
  unfold await.
  destruct (outcome (Promise_all _ _)) as [srcs | e2] eqn:Hall; simpl; [| eauto].
  exfalso. apply Promise_all_fulfilled, map_outcome_fulfilled in Hall.
  clear - Hf He1 Hall. induction Hall as [| f' s fs srcs Hs _ IH]; [contradiction |].
  destruct Hf as [-> | Hf]; [congruence | auto].
Qed.

End Run.

(** ** The resolved format list *)

Lemma filter_filter {A : Type} (f g : A -> bool) (l : list A) :
  filter f (filter g l) = filter (fun x => g x && f x) l.
Proof.
  induction l as [| x l IH]; simpl; [reflexivity |].
  destruct (g x); simpl; [destruct (f x) |]; now rewrite IH.
Qed.

Lemma Set_has_app (s1 s2 : JsSet) (x : string) :
  Set_has (s1 ++ s2) x = Set_has s1 x || Set_has s2 x.
Proof. unfold Set_has. apply existsb_app. Qed.

Lemma fold_Set_add (l : list string) (acc : JsSet) :
  fold_left Set_add l acc =
  acc ++ filter (fun y => negb (Set_has acc y)) (dedup_first l).
Proof.
  revert acc. induction l as [| x rest IH]; intros acc; simpl.
  - now rewrite app_nil_r.
  - rewrite IH, filter_filter. unfold Set_add.
    destruct (Set_has acc x) eqn:Hx; simpl.
    + f_equal. apply filter_ext. intros y.
      destruct (String.eqb_spec x y) as [<- | Hne]; simpl; [now rewrite Hx | reflexivity].
    + rewrite <- app_assoc. simpl. do 2 f_equal. apply filter_ext. intros y.
      rewrite Set_has_app. simpl. rewrite orb_false_r, negb_orb.
      rewrite (String.eqb_sym y x). apply andb_comm.
Qed.

(** [new Set(items)] keeps the first occurrence of every item. *)
Lemma Set_new_dedup_first (l : list string) : Set_new l = dedup_first l.
Proof.
  unfold Set_new. rewrite fold_Set_add. simpl.
  induction (dedup_first l) as [| y ys IH]; simpl; congruence.
Qed.

Lemma Set_has_dedup_first (l : list string) (x : string) :
  Set_has (dedup_first l) x = existsb (String.eqb x) l.
Proof.
  unfold Set_has. induction l as [| y rest IH]; simpl; [reflexivity |].
  rewrite <- IH. destruct (String.eqb_spec x y) as [-> | Hne]; simpl; [reflexivity |].
  clear IH. induction (dedup_first rest) as [| z zs IHz]; simpl; [reflexivity |].
  destruct (String.eqb_spec y z) as [<- | Hyz]; simpl.
  - rewrite IHz. destruct (String.eqb_spec x y); [contradiction | reflexivity].
  - now rewrite IHz.
Qed.

Lemma Set_add_declared (declared : list OutputFormat) (native : OutputFormat) :
  filter string_truthy (Array_from (Set_add (Set_new declared) native)) =
  declared_then_native declared native.
Proof.
  unfold declared_then_native, Array_from, Set_add.
  rewrite Set_new_dedup_first, Set_has_dedup_first.
  destruct (existsb _ _); now rewrite ?app_nil_r.
Qed.

Lemma string_truthy_iff (s : string) : string_truthy s = true <-> s <> "".
Proof. destruct s; simpl; split; congruence. Qed.

Lemma In_dedup_first (l : list string) (x : string) :
  In x l -> In x (dedup_first l).
Proof.
  induction l as [| y rest IH]; simpl; [tauto |].
  destruct (String.eqb_spec y x) as [-> | Hne]; [now left |].
  intros [-> | Hin]; [contradiction |]. right.
  apply filter_In. split; [auto |].
  destruct (String.eqb_spec y x); [contradiction | reflexivity].
Qed.

(** C2. The resolved format list is the declared formats deduplicated at their
    first positions, then the format of the source's file extension when it is
    not among them, without the empty entries; a non-empty extension format is
    always in the list, also when the declared formats leave it out. *)
Theorem resolveFormats_declared_then_native {host : Host}
    (params : GetPictureParams) (source : ImageSrc) (path : string) :
  src params = Some source ->
  native_path source = Some path ->
  resolveFormats params =
    Fulfilled (declared_then_native (formats params) (extension_format path)) /\
  (extension_format path <> "" ->
   In (extension_format path)
      (declared_then_native (formats params) (extension_format path))).
Proof.
  intros Hsrc Hpath. split.
  - unfold resolveFormats. rewrite Hsrc.
    destruct source as [p | metadata | [metadata | e]]; simpl in Hpath;
      try discriminate; injection Hpath as <-; now rewrite Set_add_declared.
  - intros Hnative. unfold declared_then_native.
    apply filter_In. split; [| now apply string_truthy_iff].
    apply in_or_app.
    destruct (existsb _ _) eqn:Hdeclared; [left | right; now left].
    apply In_dedup_first. apply existsb_exists in Hdeclared.
    destruct Hdeclared as [y [Hin Heq]]. apply String.eqb_eq in Heq. now subst.
Qed.

Lemma resolveFormats_declared_then_native_witness :
  let params := Stub.photo (WidthsArray [400; 800]%float) ["webp"; "webp"] None in
  src params = Some (SrcString "photo.jpg") /\
  native_path (SrcString "photo.jpg") = Some "photo.jpg" /\
  resolveFormats (host := Stub.host []) params = Fulfilled ["webp"; "jpg"] /\
  In "jpg" ["webp"; "jpg"].
Proof.
  intros params.
  destruct (resolveFormats_declared_then_native (host := Stub.host [])
              params (SrcString "photo.jpg") "photo.jpg" eq_refl eq_refl)
    as [Hlist Hnative].
  split; [reflexivity |]. split; [reflexivity |].
  split; [exact Hlist | apply Hnative; discriminate].
Defined.

Lemma filter_truthy_all (l : list string) :
  Forall (fun f => f <> "") l -> filter string_truthy l = l.
Proof.
  induction 1 as [| f l Hf _ IH]; simpl; [reflexivity |].
  apply string_truthy_iff in Hf. now rewrite Hf, IH.
Qed.

Lemma Forall_dedup_first (P : string -> Prop) (l : list string) :
  Forall P l -> Forall P (dedup_first l).
Proof.
  induction 1 as [| x l Hx _ IH]; simpl; constructor; [assumption |].
  apply Forall_forall. intros y Hy. apply filter_In in Hy.
  eapply Forall_forall in IH; [eassumption | tauto].
Qed.

(** C10. For a path string without a file extension the extension format is
    the empty string, which is filtered out: the resolved format list is the
    deduplicated declared formats (without empty entries, which the type
    [OutputFormat] has none of) and no native format is appended. *)
Theorem resolveFormats_without_extension {host : Host}
    (params : GetPictureParams) (path : string) :
  src params = Some (SrcString path) ->
  extname path = "" ->
  extension_format path = "" /\
  resolveFormats params = Fulfilled (filter string_truthy (dedup_first (formats params))) /\
  (Forall (fun f => f <> "") (formats params) ->
   resolveFormats params = Fulfilled (dedup_first (formats params))).
Proof.
  intros Hsrc Hext.
  assert (Hnone : extension_format path = "")
    by (unfold extension_format; now rewrite Hext).
  assert (Hlist : resolveFormats params =
                  Fulfilled (filter string_truthy (dedup_first (formats params)))).
  { unfold resolveFormats. rewrite Hsrc, Hnone. f_equal.
    unfold Array_from, Set_add. rewrite Set_new_dedup_first.
    destruct (Set_has _ _); [reflexivity |].
    rewrite filter_app. simpl. now rewrite app_nil_r. }
  repeat split; [assumption.. |].
  intros Hdeclared. rewrite Hlist. f_equal.
  now apply filter_truthy_all, Forall_dedup_first.
Qed.

Lemma resolveFormats_without_extension_witness :
  let params :=
    {| src := Some (SrcString "uploads/photo");
       widths := WidthsArray [400; 800]%float;
       formats := ["avif"; "webp"; "avif"];
       aspectRatio := None;
       fit := None;
       background := None;
       position := None |} in
  extname (Host := Stub.host []) "uploads/photo" = "" /\
  resolveFormats (host := Stub.host []) params = Fulfilled ["avif"; "webp"].
Proof.
  intros params.
  destruct (resolveFormats_without_extension (host := Stub.host [])
              params "uploads/photo" eq_refl eq_refl)
    as (_ & _ & Hlist).
  split; [reflexivity |].
  apply Hlist. repeat constructor; discriminate.
Defined.

(** ** The result of getPicture *)

(** A fulfilled call has passed the guards, its fallback transform is
    fulfilled with the returned image and every format has a fulfilled
    [getSource]. *)
Lemma getPicture_fulfilled {host : Host} (sched : Schedule) (params : GetPictureParams)
    (result : GetPictureResult) :
  outcome (getPicture sched params) = Fulfilled result ->
  exists ws ratio allFormats,
    accepted params ws ratio allFormats /\
    getPicture sched params = transforms sched params ws ratio allFormats /\
    getImage (image_transform params ws ratio allFormats) = Fulfilled (image result) /\
    Forall2 (fun format source =>
               outcome (getSource sched params ws ratio format) = Fulfilled source)
            allFormats (sources result).
Proof.
  intros Hresult.
  destruct (getPicture_cases sched params) as [(ws & ratio & fs & Hacc) | [_ [e He]]];
    [| congruence].
  exists ws, ratio, fs.
  pose proof (getPicture_accepted sched params ws ratio fs Hacc) as Hrun.
  rewrite Hrun in Hresult. apply transforms_fulfilled in Hresult.
  tauto.
Qed.

(** A call that passes the guards and whose transforms are all fulfilled is
    fulfilled, whatever the settling order. *)
Lemma getPicture_fulfils {host : Host} (sched : Schedule) (params : GetPictureParams)
    (ws : list number) (ratio : number) (allFormats : list OutputFormat) :
  accepted params ws ratio allFormats ->
  (forall transform,
     In transform (image_transform params ws ratio allFormats ::
                   source_transforms params ws ratio allFormats) ->
     exists img, getImage transform = Fulfilled img) ->
  exists result, outcome (getPicture sched params) = Fulfilled result.
Proof.
  intros Hacc Hall.
  rewrite (getPicture_accepted sched params ws ratio allFormats Hacc).
  destruct (outcome (transforms sched params ws ratio allFormats)) as [result | e] eqn:Hout;
    [eauto |].
  exfalso. apply transforms_rejected in Hout. destruct Hout as [transform [Hin Hrej]].
  rewrite issued_transforms in Hin.
  destruct (Hall transform) as [img Himg]; [| congruence].
  destruct Hin as [<- | Hin]; [now left |].
  destruct (getImage (image_transform _ _ _ _)); [now right | contradiction].
Qed.

(** C1. A fulfilled call returns one [sources] entry per resolved format, in
    the order of the resolved formats, and the [srcset] of each entry is the
    join with [","] of one candidate ["<url> <width>w"] per width, in the order
    of [widths], whatever the order in which the transforms settle. *)
Theorem getPicture_sources_srcset {host : Host} (sched : Schedule)
    (params : GetPictureParams) (result : GetPictureResult) :
  outcome (getPicture sched params) = Fulfilled result ->
  exists ws ratio allFormats,
    widths params = WidthsArray ws /\
    resolveAspectRatio params = Fulfilled (Some ratio) /\
    resolveFormats params = Fulfilled allFormats /\
    Forall2
      (fun format source =>
         exists tokens,
           Forall2
             (fun width token =>
                exists img,
                  getImage (source_transform params ratio format width) = Fulfilled img /\
                  token = (img_src img ++ " " ++ Number_toString width ++ "w")%string)
             ws tokens /\
           srcset source = String.concat "," tokens)
      allFormats (sources result).
Proof.
  intros Hresult.
  destruct (getPicture_fulfilled sched params result Hresult)
    as (ws & ratio & fs & (_ & Hws & Hratio & _ & Hfs) & _ & _ & Hsources).
  exists ws, ratio, fs. repeat (split; [assumption |]).
  eapply Forall2_impl; [| exact Hsources].
  intros format source Hsource. apply getSource_fulfilled in Hsource.
  destruct Hsource as [tokens [Hcand ->]]. exists tokens. split; [exact Hcand | reflexivity].
Qed.

Lemma getPicture_sources_srcset_witness :
  let params :=
    Stub.photo (WidthsArray [400; 800]%float) ["avif"; "webp"] (Some (RatioString "16:9")) in
  let result :=
    {| image := {| img_src := "jpg/800"; img_attributes := [] |};
       sources :=
         [ {| type := "image/avif"; srcset := "avif/400 400w,avif/800 800w" |};
           {| type := "image/webp"; srcset := "webp/400 400w,webp/800 800w" |};
           {| type := "image/jpeg"; srcset := "jpg/400 400w,jpg/800 800w" |} ] |} in
  outcome (getPicture (host := Stub.host []) Stub.reversed params) = Fulfilled result /\
  exists ws ratio allFormats,
    widths params = WidthsArray ws /\
    resolveAspectRatio (host := Stub.host []) params = Fulfilled (Some ratio) /\
    resolveFormats (host := Stub.host []) params = Fulfilled allFormats /\
    Forall2
      (fun format source =>
         exists tokens,
           Forall2
             (fun width token =>
                exists img,
                  getImage (Host := Stub.host [])
                    (source_transform params ratio format width) = Fulfilled img /\
                  token = (img_src img ++ " " ++ Stub.integral_toString width ++ "w")%string)
             ws tokens /\
           srcset source = String.concat "," tokens)
      allFormats (sources result).
Proof.
  intros params result.
  assert (Hrun : outcome (getPicture (host := Stub.host []) Stub.reversed params)
                 = Fulfilled result) by (vm_compute; reflexivity).
  split; [exact Hrun |].
  exact (getPicture_sources_srcset (host := Stub.host []) Stub.reversed params result Hrun).
Defined.

(** C8. The [type] of a [sources] entry is the MIME type that [mime.getType]
    gives for the format, and the format itself when the lookup gives none. *)
Theorem getPicture_sources_type {host : Host} (sched : Schedule)
    (params : GetPictureParams) (result : GetPictureResult) :
  outcome (getPicture sched params) = Fulfilled result ->
  exists allFormats,
    resolveFormats params = Fulfilled allFormats /\
    Forall2
      (fun format source =>
         (forall mimeType,
            mime_getType format = Some mimeType -> mimeType <> "" ->
            type source = mimeType) /\
         (mime_getType format = None -> type source = format) /\
         (mime_getType format = Some "" -> type source = format))
      allFormats (sources result).
Proof.
  intros Hresult.
  destruct (getPicture_fulfilled sched params result Hresult)
    as (ws & ratio & fs & (_ & _ & _ & _ & Hfs) & _ & _ & Hsources).
  exists fs. split; [assumption |].
  eapply Forall2_impl; [| exact Hsources].
  intros format source Hsource. apply getSource_fulfilled in Hsource.
  destruct Hsource as [tokens [_ ->]]. simpl. unfold source_type.
  repeat split.
  - intros mimeType -> Hne. apply string_truthy_iff in Hne. now rewrite Hne.
  - now intros ->.
  - now intros ->.
Qed.

Lemma getPicture_sources_type_witness :
  let params :=
    Stub.photo (WidthsArray [400]%float) ["webp"; "notaformat"] (Some (RatioNumber 2%float)) in
  let result :=
    {| image := {| img_src := "jpg/400"; img_attributes := [] |};
       sources :=
         [ {| type := "image/webp"; srcset := "webp/400 400w" |};
           {| type := "notaformat"; srcset := "notaformat/400 400w" |};
           {| type := "image/jpeg"; srcset := "jpg/400 400w" |} ] |} in
  outcome (getPicture (host := Stub.host []) Stub.in_order params) = Fulfilled result /\
  exists allFormats,
    resolveFormats (host := Stub.host []) params = Fulfilled allFormats /\
    Forall2
      (fun format source =>
         (forall mimeType,
            Stub.image_mime format = Some mimeType -> mimeType <> "" ->
            type source = mimeType) /\
         (Stub.image_mime format = None -> type source = format) /\
         (Stub.image_mime format = Some "" -> type source = format))
      allFormats (sources result).
Proof.
  intros params result.
  assert (Hrun : outcome (getPicture (host := Stub.host []) Stub.in_order params)
                 = Fulfilled result) by (vm_compute; reflexivity).
  split; [exact Hrun |].
  exact (getPicture_sources_type (host := Stub.host []) Stub.in_order params result Hrun).
Defined.

(** C3. The image of a fulfilled call is the result of the first transform
    requested, whose width is [Math.max(...widths)] (for widths that are
    numbers: one of them, and none is larger) and whose format is the last
    entry of the resolved format list. *)
Theorem getPicture_fallback_image {host : Host} (sched : Schedule)
    (params : GetPictureParams) (result : GetPictureResult) :
  outcome (getPicture sched params) = Fulfilled result ->
  exists ws allFormats transform,
    widths params = WidthsArray ws /\
    resolveFormats params = Fulfilled allFormats /\
    hd_error (issued (getPicture sched params)) = Some transform /\
    getImage transform = Fulfilled (image result) /\
    t_width transform = Math_max ws /\
    t_format transform = last_entry allFormats /\
    (ws <> [] -> Forall (fun w => PrimFloat.is_nan w = false) ws ->
     In (t_width transform) ws /\
     Forall (fun w => PrimFloat.leb w (t_width transform) = true) ws) /\
    (forall init format, allFormats = init ++ [format] -> t_format transform = Some format).
Proof.
  intros Hresult.
  destruct (getPicture_fulfilled sched params result Hresult)
    as (ws & ratio & fs & (_ & Hws & _ & _ & Hfs) & Hrun & Himage & _).
  exists ws, fs, (image_transform params ws ratio fs).
  rewrite Hrun, issued_transforms. simpl.
  repeat (split; [assumption || reflexivity |]). split.
  - apply Math_max_spec.
  - intros init format ->. apply last_entry_app.
Qed.

Lemma getPicture_fallback_image_witness :
  let params :=
    Stub.photo (WidthsArray [400; 800; 600]%float) ["avif"; "webp"]
      (Some (RatioString "16:9")) in
  let result :=
    {| image := {| img_src := "jpg/800"; img_attributes := [] |};
       sources :=
         [ {| type := "image/avif";
              srcset := "avif/400 400w,avif/800 800w,avif/600 600w" |};
           {| type := "image/webp";
              srcset := "webp/400 400w,webp/800 800w,webp/600 600w" |};
           {| type := "image/jpeg";
              srcset := "jpg/400 400w,jpg/800 800w,jpg/600 600w" |} ] |} in
  outcome (getPicture (host := Stub.host []) Stub.in_order params) = Fulfilled result /\
  exists transform,
    hd_error (issued (getPicture (host := Stub.host []) Stub.in_order params))
      = Some transform /\
    t_width transform = 800%float /\
    t_format transform = Some "jpg".
Proof.
  intros params result.
  assert (Hrun : outcome (getPicture (host := Stub.host []) Stub.in_order params)
                 = Fulfilled result) by (vm_compute; reflexivity).
  split; [exact Hrun |].
  destruct (getPicture_fallback_image (host := Stub.host []) Stub.in_order params result Hrun)
    as (ws & fs & transform & Hws & Hfs & Hhd & _ & Hwidth & Hformat & _).
  exists transform. split; [exact Hhd |].
  injection Hws as <-. injection Hfs as <-.
  split; [exact Hwidth | exact Hformat].
Defined.

(** C7. Once the fallback transform is fulfilled, the transforms requested
    after it are, for every resolved format and every width in turn, the
    request of that format and width with
    [height = Math.round(width / aspectRatio)] for the resolved ratio. *)
Theorem getSource_transform_height {host : Host} (sched : Schedule)
    (params : GetPictureParams) (fallback : GetImageTransform) (img : HTMLAttributes) :
  hd_error (issued (getPicture sched params)) = Some fallback ->
  getImage fallback = Fulfilled img ->
  exists ws ratio allFormats,
    widths params = WidthsArray ws /\
    resolveAspectRatio params = Fulfilled (Some ratio) /\
    resolveFormats params = Fulfilled allFormats /\
    tl (issued (getPicture sched params)) =
    flat_map
      (fun format =>
         map (fun width =>
                {| t_src := src params;
                   t_format := Some format;
                   t_width := width;
                   t_height := Some (Math_round (PrimFloat.div width ratio));
                   t_aspectRatio := None;
                   t_fit := fit params;
                   t_position := position params;
                   t_background := background params |})
             ws)
      allFormats.
Proof.
  intros Hhd Himg.
  destruct (getPicture_cases sched params) as [(ws & ratio & fs & Hacc) | [Hnone _]];
    [| rewrite Hnone in Hhd; discriminate].
  exists ws, ratio, fs.
  rewrite (getPicture_accepted sched params ws ratio fs Hacc), issued_transforms in *.
  destruct Hacc as (_ & Hws & Hratio & _ & Hfs).
  repeat (split; [assumption |]).
  simpl in Hhd. injection Hhd as <-. simpl. now rewrite Himg.
Qed.

Lemma getSource_transform_height_witness :
  let params :=
    Stub.photo (WidthsArray [400; 801]%float) ["webp"] (Some (RatioString "16:9")) in
  let request format width height :=
    {| t_src := Some (SrcString "photo.jpg");
       t_format := Some format;
       t_width := width;
       t_height := Some height;
       t_aspectRatio := None;
       t_fit := None;
       t_position := None;
       t_background := None |} in
  tl (issued (getPicture (host := Stub.host []) Stub.in_order params)) =
  [ request "webp" 400%float 225%float; request "webp" 801%float 451%float;
    request "jpg" 400%float 225%float; request "jpg" 801%float 451%float ].
Proof.
  intros params request.
  destruct (getSource_transform_height (host := Stub.host []) Stub.in_order params
              (image_transform params [400; 801]%float
                 (PrimFloat.div 16 9) ["webp"; "jpg"])
              {| img_src := "jpg/801"; img_attributes := [] |})
    as (ws & ratio & fs & Hws & Hratio & Hfs & Htl);
    [vm_compute; reflexivity | vm_compute; reflexivity |].
  rewrite Htl. injection Hws as <-. injection Hratio as <-. injection Hfs as <-.
  vm_compute. reflexivity.
Defined.

(** The requests of a call do not depend on the settling order. *)
Lemma issued_getPicture_schedule {host : Host} (sched1 sched2 : Schedule)
    (params : GetPictureParams) :
  issued (getPicture sched1 params) = issued (getPicture sched2 params).
Proof.
  destruct (getPicture_cases sched1 params) as [(ws & ratio & fs & Hacc) | [Hnone1 _]].
  - rewrite (getPicture_accepted sched1 params ws ratio fs Hacc).
    rewrite (getPicture_accepted sched2 params ws ratio fs Hacc).
    now rewrite !issued_transforms.
  - destruct (getPicture_cases sched2 params) as [(ws & ratio & fs & Hacc) | [Hnone2 _]];
      [| congruence].
    rewrite (getPicture_accepted sched1 params ws ratio fs Hacc) in Hnone1.
    rewrite issued_transforms in Hnone1. discriminate.
Qed.

(** C6. When a transform that [getPicture] has requested is rejected, the
    call is rejected with the reason of a rejected transform and returns no
    result; when the rejected transforms have one reason, in particular when a
    single transform is rejected, the call is rejected with that reason. *)
Theorem getPicture_transform_failure {host : Host} (sched : Schedule)
    (params : GetPictureParams) (transform : GetImageTransform) (e : JsError) :
  In transform (issued (getPicture sched params)) ->
  getImage transform = Rejected e ->
  (exists failed reason,
     In failed (issued (getPicture sched params)) /\
     getImage failed = Rejected reason /\
     outcome (getPicture sched params) = Rejected reason) /\
  ((forall other reason,
      In other (issued (getPicture sched params)) ->
      getImage other = Rejected reason -> reason = e) ->
   outcome (getPicture sched params) = Rejected e).
Proof.
  intros Hin Hrej.
  assert (Hfail : exists failed reason,
             In failed (issued (getPicture sched params)) /\
             getImage failed = Rejected reason /\
             outcome (getPicture sched params) = Rejected reason).
  { destruct (getPicture_cases sched params) as [(ws & ratio & fs & Hacc) | [Hnone _]];
      [| rewrite Hnone in Hin; contradiction].
    rewrite (getPicture_accepted sched params ws ratio fs Hacc) in *.
    destruct (transforms_rejects sched params ws ratio fs transform e Hin Hrej)
      as [reason Hreason].
    destruct (transforms_rejected sched params ws ratio fs reason Hreason)
      as [failed [Hfailed Hwhy]].
    now exists failed, reason. }
  split; [exact Hfail |].
  intros Hsame. destruct Hfail as (failed & reason & Hfailed & Hwhy & Hout).
  now rewrite Hout, (Hsame failed reason Hfailed Hwhy).
Qed.

Lemma getPicture_transform_failure_witness :
  let params :=
    Stub.photo (WidthsArray [400; 800]%float) ["avif"; "webp"] (Some (RatioString "16:9")) in
  let failed :=
    {| t_src := Some (SrcString "photo.jpg");
       t_format := Some "webp";
       t_width := 400%float;
       t_height := Some 225%float;
       t_aspectRatio := None;
       t_fit := None;
       t_position := None;
       t_background := None |} in
  In failed (issued (getPicture (host := Stub.host ["webp/400"]) Stub.reversed params)) /\
  getImage (Host := Stub.host ["webp/400"]) failed
    = Rejected (Error "transform failed: webp/400") /\
  outcome (getPicture (host := Stub.host ["webp/400"]) Stub.reversed params)
    = Rejected (Error "transform failed: webp/400").
Proof.
  intros params failed.
  assert (Hin : In failed
                  (issued (getPicture (host := Stub.host ["webp/400"]) Stub.reversed params)))
    by (vm_compute; tauto).
  assert (Hrej : getImage (Host := Stub.host ["webp/400"]) failed
                 = Rejected (Error "transform failed: webp/400"))
    by (vm_compute; reflexivity).
  split; [exact Hin |]. split; [exact Hrej |].
  apply (getPicture_transform_failure (host := Stub.host ["webp/400"])
           Stub.reversed params failed _ Hin Hrej).
  intros other reason _.
  change (Stub.named_getImage ["webp/400"] other = Rejected reason ->
          reason = Error "transform failed: webp/400").
  unfold Stub.named_getImage.
  set (url := (_ ++ "/" ++ _)%string). clearbody url.
  destruct (existsb (String.eqb url) ["webp/400"]) eqn:Hfailing; [| discriminate].
  cbn [existsb] in Hfailing. rewrite orb_false_r in Hfailing.
  apply String.eqb_eq in Hfailing. rewrite Hfailing. now intros [= <-].
Defined.

(** C9. A call that is fulfilled with a result gives, with the same
    parameters and the same transformer, the same requests and the same
    result again, whatever the order in which the transforms settle. *)
Theorem getPicture_deterministic {host : Host} (sched1 sched2 : Schedule)
    (params : GetPictureParams) (result : GetPictureResult) :
  outcome (getPicture sched1 params) = Fulfilled result ->
  getPicture sched2 params = getPicture sched1 params.
Proof.
  intros Hresult.
  rewrite (surjective_pairing (getPicture sched2 params)).
  rewrite (surjective_pairing (getPicture sched1 params)).
  change (fst ?m) with (issued m). change (snd ?m) with (outcome m).
  rewrite (issued_getPicture_schedule sched2 sched1). f_equal.
  rewrite Hresult.
  destruct (getPicture_fulfilled sched1 params result Hresult)
    as (ws & ratio & fs & Hacc & _ & Himage & Hsources).
  rewrite (getPicture_accepted sched2 params ws ratio fs Hacc).
  apply transforms_fulfilled. split; [assumption |].
  eapply Forall2_impl; [| exact Hsources].
  intros format source Hsource. apply getSource_fulfilled.
  now apply getSource_fulfilled in Hsource.
Qed.

Lemma getPicture_deterministic_witness :
  let params :=
    Stub.photo (WidthsArray [400; 800]%float) ["avif"; "webp"] (Some (RatioString "16:9")) in
  let result :=
    {| image := {| img_src := "jpg/800"; img_attributes := [] |};
       sources :=
         [ {| type := "image/avif"; srcset := "avif/400 400w,avif/800 800w" |};
           {| type := "image/webp"; srcset := "webp/400 400w,webp/800 800w" |};
           {| type := "image/jpeg"; srcset := "jpg/400 400w,jpg/800 800w" |} ] |} in
  outcome (getPicture (host := Stub.host []) Stub.in_order params) = Fulfilled result /\
  getPicture (host := Stub.host []) Stub.reversed params
  = getPicture (host := Stub.host []) Stub.in_order params.
Proof.
  intros params result.
  assert (Hrun : outcome (getPicture (host := Stub.host []) Stub.in_order params)
                 = Fulfilled result) by (vm_compute; reflexivity).
  split; [exact Hrun |].
  exact (getPicture_deterministic (host := Stub.host []) Stub.in_order Stub.reversed
           params result Hrun).
Defined.

(** ** The guards of getPicture *)

(** C4. For a path string without an aspect ratio override, for which
    [parseAspectRatio] gives no ratio, the call requests no transform and is
    rejected; past the guards on [src] and [widths] it is rejected with
    ['`aspectRatio` must be provided for remote images']. *)
Theorem getPicture_path_without_aspectRatio {host : Host} (sched : Schedule)
    (params : GetPictureParams) (path : string) :
  src params = Some (SrcString path) ->
  aspectRatio params = None ->
  parseAspectRatio None = None ->
  issued (getPicture sched params) = [] /\
  (exists e, outcome (getPicture sched params) = Rejected e) /\
  (forall ws,
     path <> "" -> widths params = WidthsArray ws ->
     outcome (getPicture sched params)
     = Rejected (Error "`aspectRatio` must be provided for remote images")).
Proof.
  intros Hsrc Hratio Hparse.
  assert (Hresolve : resolveAspectRatio params = Fulfilled None)
    by (unfold resolveAspectRatio; now rewrite Hsrc, Hratio, Hparse).
  unfold getPicture. rewrite Hresolve, Hsrc.
  destruct (src_missing _) eqn:Hmissing.
  - split; [reflexivity |]. split; [simpl; eauto |].
    intros ws Hpath _. simpl in Hmissing. apply string_truthy_iff in Hpath.
    rewrite Hpath in Hmissing. discriminate.
  - destruct (widths params) as [| | ws].
    + split; [reflexivity |]. split; [simpl; eauto |]. intros ws' _ [=].
    + split; [reflexivity |]. split; [simpl; eauto |]. intros ws' _ [=].
    + split; [reflexivity |]. split; [simpl; eauto |]. reflexivity.
Qed.

Lemma getPicture_path_without_aspectRatio_witness :
  let params := Stub.photo (WidthsArray [400; 800]%float) ["avif"; "webp"] None in
  src params = Some (SrcString "photo.jpg") /\
  aspectRatio params = None /\
  parseAspectRatio (Host := Stub.host []) None = None /\
  getPicture (host := Stub.host []) Stub.in_order params
  = ([], Rejected (Error "`aspectRatio` must be provided for remote images")).
Proof.
  intros params.
  destruct (getPicture_path_without_aspectRatio (host := Stub.host []) Stub.in_order
              params "photo.jpg" eq_refl eq_refl eq_refl)
    as (Hissued & _ & Hreason).
  repeat (split; [reflexivity |]).
  rewrite (surjective_pairing (getPicture _ params)).
  change (fst ?m) with (issued m). change (snd ?m) with (outcome m).
  rewrite Hissued, (Hreason [400; 800]%float); [reflexivity | discriminate | reflexivity].
Defined.

(** The formats are resolved whenever the aspect ratio is. *)
Lemma resolveFormats_fulfilled {host : Host} (params : GetPictureParams)
    (ratio : option number) :
  resolveAspectRatio params = Fulfilled ratio ->
  exists allFormats, resolveFormats params = Fulfilled allFormats.
Proof.
  unfold resolveAspectRatio, resolveFormats.
  destruct (src params) as [[path | metadata | [metadata | e]] |];
    try discriminate; eauto.
Qed.

(** C5, amended. With a [src], a [widths] that is missing or is not an array
    is rejected with ['[@astrojs/image] at least one `width` is required']
    before any transform is requested. The entries of an array are not
    checked: for a non-empty array that passes the other guards the fallback
    transform of width [Math.max(...widths)] is requested. *)
Theorem getPicture_widths_guard {host : Host} (sched : Schedule)
    (params : GetPictureParams) :
  src_missing (src params) = false ->
  (widths params = WidthsMissing \/ widths params = WidthsNotArray ->
   getPicture sched params
   = ([], Rejected (Error "[@astrojs/image] at least one `width` is required"))) /\
  (forall ws ratio,
     widths params = WidthsArray ws -> ws <> [] ->
     resolveAspectRatio params = Fulfilled (Some ratio) -> number_truthy ratio = true ->
     exists transform,
       hd_error (issued (getPicture sched params)) = Some transform /\
       t_width transform = Math_max ws).
Proof.
  intros Hsrc. split.
  - intros [Hws | Hws]; unfold getPicture; now rewrite Hsrc, Hws.
  - intros ws ratio Hws _ Hratio Htruthy.
    destruct (resolveFormats_fulfilled params _ Hratio) as [fs Hfs].
    assert (Hacc : accepted params ws ratio fs) by (unfold accepted; tauto).
    rewrite (getPicture_accepted sched params ws ratio fs Hacc), issued_transforms.
    eexists. split; reflexivity.
Qed.

Lemma getPicture_widths_guard_witness :
  let params := Stub.photo WidthsMissing ["avif"; "webp"] (Some (RatioString "16:9")) in
  src_missing (src params) = false /\
  widths params = WidthsMissing /\
  getPicture (host := Stub.host []) Stub.in_order params
  = ([], Rejected (Error "[@astrojs/image] at least one `width` is required")).
Proof.
  intros params.
  split; [reflexivity |]. split; [reflexivity |].
  apply (getPicture_widths_guard (host := Stub.host []) Stub.in_order params eq_refl).
  left. reflexivity.
Defined.

(** C5, as stated, fails: an array with a width that is not positive passes
    the guard and the call is fulfilled. *)
Lemma getPicture_nonpositive_width_counterexample :
  let params := Stub.photo (WidthsArray [-100]%float) ["webp"] (Some (RatioNumber 2%float)) in
  PrimFloat.ltb 0 (-100) = false /\
  getPicture (host := Stub.host []) Stub.in_order params
  = ([ {| t_src := Some (SrcString "photo.jpg");
          t_format := Some "jpg";
          t_width := (-100)%float;
          t_height := None;
          t_aspectRatio := Some 2%float;
          t_fit := None;
          t_position := None;
          t_background := None |};
       {| t_src := Some (SrcString "photo.jpg");
          t_format := Some "webp";
          t_width := (-100)%float;
          t_height := Some (-50)%float;
          t_aspectRatio := None;
          t_fit := None;
          t_position := None;
          t_background := None |};
       {| t_src := Some (SrcString "photo.jpg");
          t_format := Some "jpg";
          t_width := (-100)%float;
          t_height := Some (-50)%float;
          t_aspectRatio := None;
          t_fit := None;
          t_position := None;
          t_background := None |} ],
     Fulfilled
       {| image := {| img_src := "jpg/-100"; img_attributes := [] |};
          sources :=
            [ {| type := "image/webp"; srcset := "webp/-100 -100w" |};
              {| type := "image/jpeg"; srcset := "jpg/-100 -100w" |} ] |}).
Proof. vm_compute. split; reflexivity. Qed.

(** An empty [widths] array passes the guard as well: [Math.max()] is
    [-Infinity] and every [srcset] is the empty string. *)
Example getPicture_empty_widths :
  outcome (getPicture (host := Stub.host []) Stub.in_order
             (Stub.photo (WidthsArray []) ["webp"] (Some (RatioNumber 2%float))))
  = Fulfilled
      {| image := {| img_src := "jpg/-Infinity"; img_attributes := [] |};
         sources :=
           [ {| type := "image/webp"; srcset := "" |};
             {| type := "image/jpeg"; srcset := "" |} ] |}.
Proof. vm_compute. reflexivity. Qed.

(** With several rejected transforms the reason is the one of the transform
    that settles first. *)
Example getPicture_first_rejection :
  let params :=
    Stub.photo (WidthsArray [400; 800]%float) ["avif"; "webp"] (Some (RatioNumber 2%float)) in
  outcome (getPicture (host := Stub.host ["avif/400"; "webp/800"]) Stub.in_order params)
  = Rejected (Error "transform failed: avif/400") /\
  outcome (getPicture (host := Stub.host ["avif/400"; "webp/800"]) Stub.reversed params)
  = Rejected (Error "transform failed: webp/800").
Proof. vm_compute. split; reflexivity. Qed.

(** * Further properties of the module *)

(** ** The guards, in their order *)

(** X1. A [src] that is [undefined] or the empty string is rejected with
    ['[@astrojs/image] `src` is required'] before anything else is looked at:
    whatever [widths] is, and without requesting a transform. *)
Theorem getPicture_src_guard {host : Host} (sched : Schedule) (params : GetPictureParams) :
  src params = None \/ src params = Some (SrcString "") ->
  getPicture sched params = ([], Rejected (Error "[@astrojs/image] `src` is required")).
Proof.
  intros [Hsrc | Hsrc]; unfold getPicture; now rewrite Hsrc.
Qed.

Lemma getPicture_src_guard_witness :
  let params :=
    {| src := Some (SrcString "");
       widths := WidthsMissing;
       formats := [];
       aspectRatio := None;
       fit := None;
       background := None;
       position := None |} in
  getPicture (host := Stub.host []) Stub.in_order params
  = ([], Rejected (Error "[@astrojs/image] `src` is required")).
Proof.
  intros params.
  apply (getPicture_src_guard (host := Stub.host []) Stub.in_order params).
  right. reflexivity.
Defined.

(** X2. When [src] is a promise that is rejected and [widths] is an array,
    the call is rejected with the reason of the promise and requests no
    transform, whatever the aspect ratio override. *)
Theorem getPicture_src_promise_rejected {host : Host} (sched : Schedule)
    (params : GetPictureParams) (e : JsError) (ws : list number) :
  src params = Some (SrcPromise (Rejected e)) ->
  widths params = WidthsArray ws ->
  getPicture sched params = ([], Rejected e).
Proof.
  intros Hsrc Hws. unfold getPicture, resolveAspectRatio.
  now rewrite Hsrc, Hws.
Qed.

Lemma getPicture_src_promise_rejected_witness :
  let params :=
    {| src := Some (SrcPromise (Rejected (Error "Cannot find module")));
       widths := WidthsArray [400]%float;
       formats := ["webp"];
       aspectRatio := Some (RatioNumber 2%float);
       fit := None;
       background := None;
       position := None |} in
  getPicture (host := Stub.host []) Stub.in_order params
  = ([], Rejected (Error "Cannot find module")).
Proof.
  intros params.
  exact (getPicture_src_promise_rejected (host := Stub.host []) Stub.in_order params
           (Error "Cannot find module") [400]%float eq_refl eq_refl).
Defined.

(** X3. The reasons of a rejected call: a guard on [src], on [widths] or on
    the aspect ratio, or the rejection of the [src] promise, each before any
    transform is requested; otherwise the reason of a transform that the call
    has requested. *)
Theorem getPicture_rejection_reasons {host : Host} (sched : Schedule)
    (params : GetPictureParams) (e : JsError) :
  outcome (getPicture sched params) = Rejected e ->
  (issued (getPicture sched params) = [] /\
   ((src_missing (src params) = true /\
     e = Error "[@astrojs/image] `src` is required") \/
    (widths params <> WidthsMissing /\ widths params <> WidthsNotArray /\
     src params = Some (SrcPromise (Rejected e))) \/
    (src_missing (src params) = false /\
     (widths params = WidthsMissing \/ widths params = WidthsNotArray) /\
     e = Error "[@astrojs/image] at least one `width` is required") \/
    (exists ws ratio,
       widths params = WidthsArray ws /\
       resolveAspectRatio params = Fulfilled ratio /\
       match ratio with Some r => number_truthy r = false | None => True end /\
       e = Error "`aspectRatio` must be provided for remote images"))) \/
  (exists transform,
     In transform (issued (getPicture sched params)) /\ getImage transform = Rejected e).
Proof.
  intros Hout.
  destruct (getPicture_cases sched params) as [(ws & ratio & fs & Hacc) | [Hnone _]].
  - right. rewrite (getPicture_accepted sched params ws ratio fs Hacc) in *.
    now apply transforms_rejected.
  - left. split; [assumption |]. revert Hout. unfold getPicture.
    destruct (src_missing (src params)) eqn:Hsrc.
    { intros [= <-]. left. now split. }
    destruct (widths params) as [| | ws] eqn:Hws.
    { intros [= <-]. right; right; left. repeat split; auto. }
    { intros [= <-]. right; right; left. repeat split; auto. }
    destruct (resolveAspectRatio params) as [ratio | e'] eqn:Hratio.
    + unfold await at 1, settled; simpl.
      destruct ratio as [r |]; simpl.
      * destruct (number_truthy r) eqn:Htruthy; simpl.
        -- intros _. exfalso.
           destruct (resolveFormats_fulfilled params _ Hratio) as [fs Hfs].
           assert (Hacc : accepted params ws r fs) by (unfold accepted; tauto).
           rewrite (getPicture_accepted sched params ws r fs Hacc) in Hnone.
           rewrite issued_transforms in Hnone. discriminate.
        -- intros [= <-]. right; right; right. exists ws, (Some r).
           repeat split; auto.
      * intros [= <-]. right; right; right. exists ws, None.
        repeat split; auto.
    + unfold await at 1, settled; simpl. intros [= <-].
      right; left. repeat split; try discriminate.
      unfold resolveAspectRatio in Hratio.
      destruct (src params) as [[path | metadata | [metadata | e'']] |];
        try discriminate; congruence.
Qed.

Lemma getPicture_rejection_reasons_witness :
  let params :=
    Stub.photo (WidthsArray [400; 800]%float) ["webp"] (Some (RatioNumber 2%float)) in
  outcome (getPicture (host := Stub.host ["webp/800"]) Stub.in_order params)
  = Rejected (Error "transform failed: webp/800") /\
  exists transform,
    In transform (issued (getPicture (host := Stub.host ["webp/800"]) Stub.in_order params)) /\
    getImage (Host := Stub.host ["webp/800"]) transform
    = Rejected (Error "transform failed: webp/800").
Proof.
  intros params.
  assert (Hout : outcome (getPicture (host := Stub.host ["webp/800"]) Stub.in_order params)
                 = Rejected (Error "transform failed: webp/800"))
    by (vm_compute; reflexivity).
  split; [exact Hout |].
  destruct (getPicture_rejection_reasons (host := Stub.host ["webp/800"])
              Stub.in_order params _ Hout) as [[Hnone _] | Htransform].
  - vm_compute in Hnone. discriminate.
  - exact Htransform.
Defined.

(** ** The aspect ratio of a source with metadata *)

(** The first request of a call that passes the guards. *)
Lemma getPicture_first_request {host : Host} (sched : Schedule) (params : GetPictureParams)
    (ws : list number) (ratio : number) (allFormats : list OutputFormat) :
  accepted params ws ratio allFormats ->
  hd_error (issued (getPicture sched params))
  = Some (image_transform params ws ratio allFormats) /\
  Forall (fun transform =>
            exists format width,
              transform = source_transform params ratio format width)
         (tl (issued (getPicture sched params))).
Proof.
  intros Hacc.
  rewrite (getPicture_accepted sched params ws ratio allFormats Hacc), issued_transforms.
  split; [reflexivity |]. simpl.
  destruct (getImage _); [| constructor].
  apply Forall_forall. intros transform Hin.
  unfold source_transforms in Hin. apply in_flat_map in Hin.
  destruct Hin as [format [_ Hin]]. apply in_map_iff in Hin.
  destruct Hin as [width [<- _]]. eauto.
Qed.

(** X4. For a source with metadata (given directly or by a fulfilled promise)
    and no aspect ratio from the override, the ratio is
    [metadata.width / metadata.height]: it is the [aspectRatio] of the fallback
    transform and every later transform has
    [height = Math.round(width / (metadata.width / metadata.height))]. When
    that quotient is [0] or [NaN] the call is rejected with
    ['`aspectRatio` must be provided for remote images'] instead. *)
Theorem getPicture_metadata_ratio {host : Host} (sched : Schedule)
    (params : GetPictureParams) (metadata : ImageMetadata) (ws : list number) :
  src params = Some (SrcMetadata metadata) \/
  src params = Some (SrcPromise (Fulfilled metadata)) ->
  widths params = WidthsArray ws ->
  parseAspectRatio (aspectRatio params) = None ->
  (number_truthy (PrimFloat.div (meta_width metadata) (meta_height metadata)) = true ->
   exists fallback,
     hd_error (issued (getPicture sched params)) = Some fallback /\
     t_aspectRatio fallback
     = Some (PrimFloat.div (meta_width metadata) (meta_height metadata)) /\
     Forall (fun transform =>
               t_height transform
               = Some (Math_round
                         (PrimFloat.div (t_width transform)
                            (PrimFloat.div (meta_width metadata) (meta_height metadata)))))
            (tl (issued (getPicture sched params)))) /\
  (number_truthy (PrimFloat.div (meta_width metadata) (meta_height metadata)) = false ->
   getPicture sched params
   = ([], Rejected (Error "`aspectRatio` must be provided for remote images"))).
Proof.
  intros Hsrc Hws Hparse.
  set (ratio := PrimFloat.div (meta_width metadata) (meta_height metadata)).
  assert (Hmissing : src_missing (src params) = false)
    by (destruct Hsrc as [-> | ->]; reflexivity).
  assert (Hratio : resolveAspectRatio params = Fulfilled (Some ratio))
    by (unfold resolveAspectRatio; destruct Hsrc as [-> | ->]; now rewrite Hparse).
  split; intros Htruthy.
  - destruct (resolveFormats_fulfilled params _ Hratio) as [fs Hfs].
    assert (Hacc : accepted params ws ratio fs) by (unfold accepted; tauto).
    destruct (getPicture_first_request sched params ws ratio fs Hacc) as [Hhd Htl].
    eexists. split; [exact Hhd |]. split; [reflexivity |].
    eapply Forall_impl; [| exact Htl].
    intros transform (format & width & ->). reflexivity.
  - unfold getPicture. rewrite Hmissing, Hws, Hratio.
    unfold await, settled; simpl. now rewrite Htruthy.
Qed.

Lemma getPicture_metadata_ratio_witness :
  let metadata := {| meta_src := "/assets/hero.png"; meta_width := 1600; meta_height := 900 |} in
  let params :=
    {| src := Some (SrcMetadata metadata);
       widths := WidthsArray [400; 800]%float;
       formats := ["webp"];
       aspectRatio := None;
       fit := None;
       background := None;
       position := None |} in
  number_truthy (PrimFloat.div 1600 900) = true /\
  exists fallback,
    hd_error (issued (getPicture (host := Stub.host []) Stub.in_order params)) = Some fallback /\
    t_aspectRatio fallback = Some (PrimFloat.div 1600 900) /\
    Forall (fun transform =>
              t_height transform
              = Some (Math_round
                        (PrimFloat.div (t_width transform) (PrimFloat.div 1600 900))))
           (tl (issued (getPicture (host := Stub.host []) Stub.in_order params))).
Proof.
  intros metadata params.
  split; [reflexivity |].
  apply (getPicture_metadata_ratio (host := Stub.host []) Stub.in_order params metadata
           [400; 800]%float (or_introl eq_refl) eq_refl eq_refl).
  reflexivity.
Defined.

(** X5. An aspect ratio from the override that is neither [0] nor [NaN] is
    the ratio of the call also for a source with metadata: the dimensions of
    the metadata are not used. *)
Theorem getPicture_override_ratio {host : Host} (sched : Schedule)
    (params : GetPictureParams) (ws : list number) (ratio : number)
    (allFormats : list OutputFormat) :
  src_missing (src params) = false ->
  widths params = WidthsArray ws ->
  resolveFormats params = Fulfilled allFormats ->
  parseAspectRatio (aspectRatio params) = Some ratio ->
  number_truthy ratio = true ->
  exists fallback,
    hd_error (issued (getPicture sched params)) = Some fallback /\
    t_aspectRatio fallback = Some ratio /\
    Forall (fun transform =>
              t_height transform
              = Some (Math_round (PrimFloat.div (t_width transform) ratio)))
           (tl (issued (getPicture sched params))).
Proof.
  intros Hmissing Hws Hfs Hparse Htruthy.
  assert (Hratio : resolveAspectRatio params = Fulfilled (Some ratio)).
  { unfold resolveAspectRatio, resolveFormats in *.
    destruct (src params) as [[path | metadata | [metadata | e]] |];
      try discriminate; rewrite Hparse; simpl; now rewrite ?Htruthy. }
  assert (Hacc : accepted params ws ratio allFormats) by (unfold accepted; tauto).
  destruct (getPicture_first_request sched params ws ratio allFormats Hacc) as [Hhd Htl].
  eexists. split; [exact Hhd |]. split; [reflexivity |].
  eapply Forall_impl; [| exact Htl].
  intros transform (format & width & ->). reflexivity.
Qed.

Lemma getPicture_override_ratio_witness :
  let metadata := {| meta_src := "/assets/hero.png"; meta_width := 1600; meta_height := 900 |} in
  let params :=
    {| src := Some (SrcMetadata metadata);
       widths := WidthsArray [400; 800]%float;
       formats := ["webp"];
       aspectRatio := Some (RatioString "1:1");
       fit := None;
       background := None;
       position := None |} in
  exists fallback,
    hd_error (issued (getPicture (host := Stub.host []) Stub.in_order params)) = Some fallback /\
    t_aspectRatio fallback = Some 1%float /\
    Forall (fun transform =>
              t_height transform
              = Some (Math_round (PrimFloat.div (t_width transform) 1)))
           (tl (issued (getPicture (host := Stub.host []) Stub.in_order params))).
Proof.
  intros metadata params.
  exact (getPicture_override_ratio (host := Stub.host []) Stub.in_order params
           [400; 800]%float 1%float ["webp"; "png"] eq_refl eq_refl eq_refl eq_refl eq_refl).
Defined.

(** ** The transforms a call requests *)

(** X6. The fallback transform is awaited before the [srcset] transforms are
    started: when it is rejected, it is the only transform requested and the
    call is rejected with its reason, whatever the settling order. *)
Theorem getPicture_fallback_rejected {host : Host} (sched : Schedule)
    (params : GetPictureParams) (fallback : GetImageTransform) (e : JsError) :
  hd_error (issued (getPicture sched params)) = Some fallback ->
  getImage fallback = Rejected e ->
  getPicture sched params = ([fallback], Rejected e).
Proof.
  intros Hhd Hrej.
  destruct (getPicture_cases sched params) as [(ws & ratio & fs & Hacc) | [Hnone _]];
    [| rewrite Hnone in Hhd; discriminate].
  rewrite (getPicture_accepted sched params ws ratio fs Hacc) in *.
  rewrite issued_transforms in Hhd. simpl in Hhd. injection Hhd as <-.
  unfold transforms, await at 1; simpl. now rewrite Hrej.
Qed.

Lemma getPicture_fallback_rejected_witness :
  let params :=
    Stub.photo (WidthsArray [400; 800]%float) ["avif"; "webp"] (Some (RatioNumber 2%float)) in
  let fallback :=
    {| t_src := Some (SrcString "photo.jpg");
       t_format := Some "jpg";
       t_width := 800%float;
       t_height := None;
       t_aspectRatio := Some 2%float;
       t_fit := None;
       t_position := None;
       t_background := None |} in
  getPicture (host := Stub.host ["jpg/800"]) Stub.reversed params
  = ([fallback], Rejected (Error "transform failed: jpg/800")).
Proof.
  intros params fallback.
  apply (getPicture_fallback_rejected (host := Stub.host ["jpg/800"]) Stub.reversed params).
  - vm_compute. reflexivity.
  - vm_compute. reflexivity.
Defined.

(** X7. Once the fallback transform is fulfilled, the call has requested one
    transform for the fallback and one for every pair of a resolved format and
    a width: [1 + allFormats.length * widths.length] in all, also when some of
    them are rejected. *)
Theorem getPicture_request_count {host : Host} (sched : Schedule)
    (params : GetPictureParams) (fallback : GetImageTransform) (img : HTMLAttributes) :
  hd_error (issued (getPicture sched params)) = Some fallback ->
  getImage fallback = Fulfilled img ->
  exists ws allFormats,
    widths params = WidthsArray ws /\
    resolveFormats params = Fulfilled allFormats /\
    List.length (issued (getPicture sched params))
    = 1 + List.length allFormats * List.length ws.
Proof.
  intros Hhd Himg.
  destruct (getPicture_cases sched params) as [(ws & ratio & fs & Hacc) | [Hnone _]];
    [| rewrite Hnone in Hhd; discriminate].
  exists ws, fs.
  rewrite (getPicture_accepted sched params ws ratio fs Hacc), issued_transforms in *.
  destruct Hacc as (_ & Hws & _ & _ & Hfs).
  repeat (split; [assumption |]).
  simpl in Hhd. injection Hhd as <-. rewrite Himg. simpl. f_equal.
  unfold source_transforms. clear. induction fs as [| f fs IH]; simpl; [reflexivity |].
  now rewrite length_app, length_map, IH.
Qed.

Lemma getPicture_request_count_witness :
  let params :=
    Stub.photo (WidthsArray [400; 800; 1200]%float) ["avif"; "webp"]
      (Some (RatioNumber 2%float)) in
  List.length (issued (getPicture (host := Stub.host ["webp/800"]) Stub.in_order params)) = 10.
Proof.
  intros params.
  destruct (getPicture_request_count (host := Stub.host ["webp/800"]) Stub.in_order params
              (image_transform params [400; 800; 1200]%float 2%float ["avif"; "webp"; "jpg"])
              {| img_src := "jpg/1200"; img_attributes := [] |})
    as (ws & fs & Hws & Hfs & Hcount);
    [vm_compute; reflexivity | vm_compute; reflexivity |].
  rewrite Hcount. injection Hws as <-. injection Hfs as <-. reflexivity.
Defined.

(** X8. Every transform requested carries [src], [fit], [position] and
    [background] as the caller gave them; only the fallback transform, the
    first one, carries an [aspectRatio] and it has no [height], and every
    later transform carries a [height] and no [aspectRatio]. *)
Theorem getPicture_options_forwarded {host : Host} (sched : Schedule)
    (params : GetPictureParams) :
  Forall (fun transform =>
            t_src transform = src params /\
            t_fit transform = fit params /\
            t_position transform = position params /\
            t_background transform = background params)
         (issued (getPicture sched params)) /\
  (forall fallback,
     hd_error (issued (getPicture sched params)) = Some fallback ->
     t_height fallback = None /\ t_aspectRatio fallback <> None) /\
  Forall (fun transform =>
            t_height transform <> None /\ t_aspectRatio transform = None)
         (tl (issued (getPicture sched params))).
Proof.
  destruct (getPicture_cases sched params) as [(ws & ratio & fs & Hacc) | [Hnone _]].
  - destruct (getPicture_first_request sched params ws ratio fs Hacc) as [Hhd Htl].
    destruct (issued (getPicture sched params)) as [| first rest]; [discriminate |].
    simpl in Hhd, Htl. injection Hhd as ->.
    split; [| split].
    + constructor; [now repeat split |].
      eapply Forall_impl; [| exact Htl].
      intros transform (format & width & ->). now repeat split.
    + intros fallback [= <-]. split; [reflexivity | discriminate].
    + simpl. eapply Forall_impl; [| exact Htl].
      intros transform (format & width & ->). split; [discriminate | reflexivity].
  - rewrite Hnone. split; [constructor |]. split; [discriminate | constructor].
Qed.

Lemma getPicture_options_forwarded_example :
  let params :=
    {| src := Some (SrcString "photo.jpg");
       widths := WidthsArray [400]%float;
       formats := ["webp"];
       aspectRatio := Some (RatioNumber 2%float);
       fit := Some "cover";
       background := Some "#fff";
       position := Some "center" |} in
  map (fun transform => (t_fit transform, t_position transform, t_background transform))
      (issued (getPicture (host := Stub.host []) Stub.in_order params))
  = [ (Some "cover", Some "center", Some "#fff");
      (Some "cover", Some "center", Some "#fff");
      (Some "cover", Some "center", Some "#fff") ].
Proof. vm_compute. reflexivity. Qed.

(** ** The resolved formats and the format of the fallback *)

Lemma In_dedup_first_inv (l : list string) (x : string) :
  In x (dedup_first l) -> In x l.
Proof.
  induction l as [| y rest IH]; simpl; [tauto |].
  intros [-> | Hin]; [now left |]. right. apply IH.
  apply filter_In in Hin. tauto.
Qed.

Lemma NoDup_dedup_first (l : list string) : NoDup (dedup_first l).
Proof.
  induction l as [| x rest IH]; simpl; constructor.
  - intros Hin. apply filter_In in Hin. destruct Hin as [_ Hne].
    now rewrite String.eqb_refl in Hne.
  - now apply NoDup_filter.
Qed.

Lemma length_dedup_first (l : list string) :
  List.length (dedup_first l) <= List.length l.
Proof.
  induction l as [| x rest IH]; simpl; [lia |].
  pose proof (filter_length_le (fun y => negb (String.eqb x y)) (dedup_first rest)). lia.
Qed.

Lemma existsb_eqb_In (l : list string) (x : string) :
  existsb (String.eqb x) l = true <-> In x l.
Proof.
  rewrite existsb_exists. split.
  - intros [y [Hin Heq]]. apply String.eqb_eq in Heq. now subst.
  - intros Hin. exists x. split; [assumption | apply String.eqb_refl].
Qed.

(** A fulfilled [resolveFormats] has a path for the native format and gives
    the list of the declared formats and the format of that path. *)
Lemma resolveFormats_fulfilled_inv {host : Host} (params : GetPictureParams)
    (allFormats : list OutputFormat) :
  resolveFormats params = Fulfilled allFormats ->
  exists s path,
    src params = Some s /\ native_path s = Some path /\
    allFormats = declared_then_native (formats params) (extension_format path).
Proof.
  unfold resolveFormats.
  destruct (src params) as [[path | metadata | [metadata | e]] |]; try discriminate;
    intros [= <-]; do 2 eexists; (split; [reflexivity |]); (split; [reflexivity |]);
    apply Set_add_declared.
Qed.

(** X9. The resolved formats have no repetition and no empty entry; they are
    at most one more than the declared formats; every declared format that is
    not empty is among them, and every one of them is a declared format or the
    format of the source's extension. *)
Theorem resolveFormats_invariants {host : Host} (params : GetPictureParams)
    (allFormats : list OutputFormat) :
  resolveFormats params = Fulfilled allFormats ->
  NoDup allFormats /\
  Forall (fun format => format <> "") allFormats /\
  List.length allFormats <= List.length (formats params) + 1 /\
  (forall format, In format (formats params) -> format <> "" -> In format allFormats) /\
  (forall format,
     In format allFormats ->
     In format (formats params) \/
     exists s path,
       src params = Some s /\ native_path s = Some path /\
       format = extension_format path).
Proof.
  intros Hfs.
  destruct (resolveFormats_fulfilled_inv params allFormats Hfs)
    as (s & path & Hsrc & Hpath & ->).
  unfold declared_then_native.
  set (declared := formats params). set (native := extension_format path).
  split; [| split; [| split; [| split]]].
  - apply NoDup_filter.
    destruct (existsb _ _) eqn:Hdeclared; [rewrite app_nil_r; apply NoDup_dedup_first |].
    apply NoDup_app; [apply NoDup_dedup_first | repeat constructor; auto |].
    intros x Hx [<- | []]. apply In_dedup_first_inv, existsb_eqb_In in Hx. congruence.
  - apply Forall_forall. intros format Hin. apply filter_In in Hin.
    now apply string_truthy_iff.
  - etransitivity; [apply filter_length_le |]. rewrite length_app.
    pose proof (length_dedup_first declared).
    destruct (existsb _ _); simpl; unfold OutputFormat in *; lia.
  - intros format Hin Hne. apply filter_In. split; [| now apply string_truthy_iff].
    apply in_or_app. left. now apply In_dedup_first.
  - intros format Hin. apply filter_In in Hin. destruct Hin as [Hin _].
    apply in_app_or in Hin. destruct Hin as [Hin | Hin];
      [left; now apply In_dedup_first_inv |].
    destruct (existsb _ _); [contradiction |]. destruct Hin as [<- | []].
    right. now exists s, path.
Qed.

Lemma resolveFormats_invariants_witness :
  let params :=
    Stub.photo (WidthsArray [400]%float) ["webp"; "jpg"; "webp"; "avif"; "jpg"] None in
  resolveFormats (host := Stub.host []) params = Fulfilled ["webp"; "jpg"; "avif"] /\
  NoDup ["webp"; "jpg"; "avif"].
Proof.
  intros params.
  assert (Hfs : resolveFormats (host := Stub.host []) params
                = Fulfilled ["webp"; "jpg"; "avif"]) by reflexivity.
  split; [exact Hfs |].
  exact (proj1 (resolveFormats_invariants (host := Stub.host []) params _ Hfs)).
Defined.



(** ** Edge cases *)

Lemma source_transforms_nil {host : Host} (params : GetPictureParams) (ratio : number)
    (allFormats : list OutputFormat) :
  source_transforms params [] ratio allFormats = [].
Proof.
  unfold source_transforms. induction allFormats as [| f fs IH]; simpl; auto.
Qed.

(** X11. An empty [widths] array is not rejected. A call with it that is
    fulfilled has requested the fallback transform only, with the width
    [-Infinity] of [Math.max()], and returns one source per resolved format,
    each with the empty string as [srcset]. *)
Theorem getPicture_no_widths {host : Host} (sched : Schedule)
    (params : GetPictureParams) (result : GetPictureResult) :
  widths params = WidthsArray [] ->
  outcome (getPicture sched params) = Fulfilled result ->
  exists fallback allFormats,
    issued (getPicture sched params) = [fallback] /\
    t_width fallback = PrimFloat.neg_infinity /\
    getImage fallback = Fulfilled (image result) /\
    resolveFormats params = Fulfilled allFormats /\
    List.length (sources result) = List.length allFormats /\
    Forall (fun source => srcset source = "") (sources result).
Proof.
  intros Hws Hresult.
  destruct (getPicture_fulfilled sched params result Hresult)
    as (ws & ratio & fs & (_ & Hws' & _ & _ & Hfs) & Hrun & Himage & Hsources).
  rewrite Hws in Hws'. injection Hws' as <-.
  exists (image_transform params [] ratio fs), fs.
  rewrite Hrun, issued_transforms, Himage.
  rewrite source_transforms_nil. repeat (split; [assumption || reflexivity |]).
  split; [symmetry; eapply Forall2_length; eassumption |].
  clear - Hsources. induction Hsources as [| format source fs srcs Hsource _ IH];
    constructor; [| assumption].
  apply getSource_fulfilled in Hsource. destruct Hsource as [tokens [Hcand ->]].
  inversion Hcand. reflexivity.
Qed.

Lemma getPicture_no_widths_witness :
  let params := Stub.photo (WidthsArray []) ["webp"] (Some (RatioNumber 2%float)) in
  let result :=
    {| image := {| img_src := "jpg/-Infinity"; img_attributes := [] |};
       sources :=
         [ {| type := "image/webp"; srcset := "" |};
           {| type := "image/jpeg"; srcset := "" |} ] |} in
  outcome (getPicture (host := Stub.host []) Stub.in_order params) = Fulfilled result /\
  exists fallback,
    issued (getPicture (host := Stub.host []) Stub.in_order params) = [fallback] /\
    t_width fallback = PrimFloat.neg_infinity.
Proof.
  intros params result.
  assert (Hrun : outcome (getPicture (host := Stub.host []) Stub.in_order params)
                 = Fulfilled result) by (vm_compute; reflexivity).
  split; [exact Hrun |].
  destruct (getPicture_no_widths (host := Stub.host []) Stub.in_order params result
              eq_refl Hrun) as (fallback & fs & Hissued & Hwidth & _).
  now exists fallback.
Defined.

(** A result does not depend on the settling order. *)
Lemma getPicture_fulfilled_schedule {host : Host} (sched1 sched2 : Schedule)
    (params : GetPictureParams) (result : GetPictureResult) :
  outcome (getPicture sched1 params) = Fulfilled result ->
  outcome (getPicture sched2 params) = Fulfilled result.
Proof.
  intros Hresult.
  destruct (getPicture_fulfilled sched1 params result Hresult)
    as (ws & ratio & fs & Hacc & _ & Himage & Hsources).
  rewrite (getPicture_accepted sched2 params ws ratio fs Hacc).
  apply transforms_fulfilled. split; [assumption |].
  eapply Forall2_impl; [| exact Hsources].
  intros format source Hsource. apply getSource_fulfilled.
  now apply getSource_fulfilled in Hsource.
Qed.

(** A call that does not pass the guards is rejected in one way, whatever the
    settling order. *)
Lemma getPicture_guarded {host : Host} (params : GetPictureParams) :
  (exists ws ratio allFormats, accepted params ws ratio allFormats) \/
  (exists e, forall sched, getPicture sched params = ([], Rejected e)).
Proof.
  unfold accepted, getPicture.
  destruct (src_missing (src params)) eqn:Hsrc; [right; eexists; reflexivity |].
  destruct (widths params) as [| | ws] eqn:Hws; try (right; eexists; reflexivity).
  destruct (resolveAspectRatio params) as [[ratio |] | e] eqn:Hratio;
    try (right; eexists; reflexivity).
  destruct (number_truthy ratio) eqn:Htruthy.
  - destruct (resolveFormats_fulfilled params _ Hratio) as [fs Hfs].
    left. exists ws, ratio, fs. auto.
  - right. eexists. intros sched. unfold await, settled; simpl.
    now rewrite Htruthy.
Qed.

Lemma getPicture_guarded_schedule {host : Host} (sched1 sched2 : Schedule)
    (params : GetPictureParams) :
  issued (getPicture sched1 params) = [] ->
  getPicture sched2 params = getPicture sched1 params.
Proof.
  intros Hnone.
  destruct (getPicture_guarded params) as [(ws & ratio & fs & Hacc) | [e He]].
  - rewrite (getPicture_accepted sched1 params ws ratio fs Hacc), issued_transforms in Hnone.
    discriminate.
  - now rewrite !He.
Qed.

(** X12. Whether a call is rejected does not depend on the order in which
    the transforms settle: a call rejected under one order requests the same
    transforms and is rejected under every other order. Only the reason may
    differ, and it does not when no transform was requested. *)
Theorem getPicture_rejected_any_schedule {host : Host} (sched1 sched2 : Schedule)
    (params : GetPictureParams) (e : JsError) :
  outcome (getPicture sched1 params) = Rejected e ->
  issued (getPicture sched2 params) = issued (getPicture sched1 params) /\
  (exists reason, outcome (getPicture sched2 params) = Rejected reason) /\
  (issued (getPicture sched1 params) = [] ->
   outcome (getPicture sched2 params) = Rejected e).
Proof.
  intros Hrej.
  split; [apply issued_getPicture_schedule |].
  split.
  - destruct (outcome (getPicture sched2 params)) as [result | reason] eqn:Hout; [| eauto].
    apply (getPicture_fulfilled_schedule sched2 sched1) in Hout. congruence.
  - intros Hnone. rewrite <- Hrej. f_equal.
    now apply getPicture_guarded_schedule.
Qed.

Lemma getPicture_rejected_any_schedule_witness :
  let params :=
    Stub.photo (WidthsArray [400; 800]%float) ["avif"; "webp"] (Some (RatioNumber 2%float)) in
  outcome (getPicture (host := Stub.host ["avif/400"; "webp/800"]) Stub.in_order params)
  = Rejected (Error "transform failed: avif/400") /\
  exists reason,
    outcome (getPicture (host := Stub.host ["avif/400"; "webp/800"]) Stub.reversed params)
    = Rejected reason.
Proof.
  intros params.
  assert (Hrej : outcome (getPicture (host := Stub.host ["avif/400"; "webp/800"])
                            Stub.in_order params)
                 = Rejected (Error "transform failed: avif/400"))
    by (vm_compute; reflexivity).
  split; [exact Hrej |].
  exact (proj1 (proj2 (getPicture_rejected_any_schedule
                         (host := Stub.host ["avif/400"; "webp/800"])
                         Stub.in_order Stub.reversed params _ Hrej))).
Defined.
